(** * The constraint algebra of the semver package (constraints.go)

    A shallow embedding of [NewConstraint], [Intersection] and [Union],
    the three functions of constraints.go, together with the properties
    they are specified to have.

    The methods that constraints.go calls on the constraint variants
    ([Intersect], [Union], [MatchesAny], [Equal]), the ordering behind
    [sort.Sort], [areAdjacent], [rewriteRange] and [parseConstraint] live in
    other files of the package.  They are taken as parameters of the
    embedding; a contract is assumed of them only where a property needs
    it, and then as an explicit hypothesis. *)

From stdpp Require Import base option list strings gmap.

(** ** Outcomes of running Go code

    A Go function either returns or panics.  Three panics can arise in
    constraints.go: the explicit [panic("unknown constraint type")] of the
    type switches, a failed type assertion [x.(T)], and a method call on a
    nil interface value. *)

Inductive panic : Type :=
  | unknownConstraintType
  | interfaceConversion
  | nilDereference.

Inductive result (A : Type) : Type :=
  | Ok (a : A)
  | Panic (p : panic).

Arguments Ok {A} a.
Arguments Panic {A} p.

#[global] Instance result_ret : MRet result := @Ok.
#[global] Instance result_bind : MBind result := λ A B f m,
  match m with
  | Ok a => f a
  | Panic p => Panic p
  end.

#[global] Instance result_fmap : FMap result := λ A B f m,
  match m with
  | Ok a => Ok (f a)
  | Panic p => Panic p
  end.

#[global] Instance panic_eq_dec : EqDecision panic.
Proof. solve_decision. Defined.

(** ** [strings.Split] of the Go standard library, for a non-empty separator

    [splitFrom sep s skip cur] walks [s]; [cur] is the piece read so far and
    [skip] counts the characters of a separator that was just matched and
    still has to be stepped over. *)

Fixpoint splitFrom (sep s : string) (skip : nat) (cur : string) : list string :=
  match s with
  | EmptyString => [cur]
  | String ch rest =>
      match skip with
      | S k => splitFrom sep rest k cur
      | O =>
          if String.prefix sep s
          then cur :: splitFrom sep rest (String.length sep - 1) EmptyString
          else splitFrom sep rest 0 (cur +:+ String ch EmptyString)
      end
  end.

Definition Split (s sep : string) : list string := splitFrom sep s 0 EmptyString.

(** The character [ch] occurs in [s]; no character of [chars] occurs in
    [s]. *)
Fixpoint occursIn (ch : Ascii.ascii) (s : string) : bool :=
  match s with
  | EmptyString => false
  | String c rest => if Ascii.eqb ch c then true else occursIn ch rest
  end.

Fixpoint noneOf (chars s : string) : bool :=
  match s with
  | EmptyString => true
  | String c rest => negb (occursIn c chars) && noneOf chars rest
  end.

(** ** The constraint variants

    [Constraint] is an interface closed by its unexported method
    [_private]; the package implements it with five types.  [realConstraint]
    is the sub-interface of the two variants that denote versions directly;
    [unionConstraint] and [constraintList] are both [[]realConstraint]. *)

Section Variants.
Context {Version rangeConstraint : Type}.

Inductive realConstraint : Type :=
  | realVersion (v : Version)
  | realRange (r : rangeConstraint).

Inductive Constraint : Type :=
  | any
  | none
  | ofVersion (v : Version)
  | ofRange (r : rangeConstraint)
  | ofUnion (u : list realConstraint).

(** A variable of interface type [Constraint] holds [nil] or a value of
    one of the five variants. *)
Inductive iface : Type :=
  | Nil
  | Val (c : Constraint).

(** A [realConstraint] stored in a [Constraint] variable. *)
Definition ofReal (r : realConstraint) : Constraint :=
  match r with
  | realVersion v => ofVersion v
  | realRange r => ofRange r
  end.

(** The type assertion [c.(realConstraint)]. *)
Definition asReal (c : Constraint) : option realConstraint :=
  match c with
  | ofVersion v => Some (realVersion v)
  | ofRange r => Some (realRange r)
  | _ => None
  end.

(** The type assertion [c.(unionConstraint)]. *)
Definition asUnion (c : Constraint) : result (list realConstraint) :=
  match c with
  | ofUnion u => Ok u
  | _ => Panic interfaceConversion
  end.

(** The Points and Ranges that a constraint adds to the list gathered by
    the first loop of [Intersection] or [Union]. *)
Definition members (c : Constraint) : list realConstraint :=
  match c with
  | any | none => []
  | ofVersion v => [realVersion v]
  | ofRange r => [realRange r]
  | ofUnion u => u
  end.

(** The end of [Union] (lines 290-293): a single member is returned bare,
    any other number of members as a [unionConstraint]. *)
Definition wrapMembers (nuc : list realConstraint) : iface :=
  match nuc with
  | [m] => Val (ofReal m)
  | _ => Val (ofUnion nuc)
  end.

(** [None()] and [IsNone] are the accessors of the empty constraint. *)
Definition None' : iface := Val none.

Definition IsNone (c : iface) : bool :=
  match c with
  | Val none => true
  | _ => false
  end.

(** [Any()] and [IsAny], those of the universal constraint. *)
Definition Any : iface := Val any.

Definition IsAny (c : iface) : bool :=
  match c with
  | Val any => true
  | _ => false
  end.
End Variants.

Arguments realConstraint : clear implicits.
Arguments Constraint : clear implicits.
Arguments iface : clear implicits.

Abbreviation unionConstraint V R := (list (realConstraint V R)).
Abbreviation constraintList V R := (list (realConstraint V R)).

(** ** [Intersection] *)

Section Intersection.
Context {Version rangeConstraint : Type}.
#[local] Abbreviation Constraint := (Constraint Version rangeConstraint).
#[local] Abbreviation iface := (iface Version rangeConstraint).
#[local] Abbreviation constraintList := (constraintList Version rangeConstraint).

(** [sort.Sort] on a [constraintList]; the ordering ([Less]) is defined
    with [constraintList] in another file. *)
Variable sortList : constraintList → constraintList.

(** The [Intersect] method of the five variants, by dynamic dispatch on the
    receiver. *)
Variable Intersect : Constraint → Constraint → Constraint.

(** How a pass over the arguments ends: the function returns from inside
    the loop, or the loop runs to its end with the members it gathered. *)
Inductive scanned : Type :=
  | Returned (c : iface)
  | Gathered (real : constraintList).

(** The first loop of [Intersection] (lines 153-168). *)
Fixpoint intersectionScan (cg : list iface) (real : constraintList) : result scanned :=
  match cg with
  | [] => Ok (Gathered real)
  | c :: rest =>
      match c with
      | Val any => intersectionScan rest real
      | Val none => Ok (Returned c)
      | Val (ofVersion tc) => intersectionScan rest (real ++ [realVersion tc])
      | Val (ofRange tc) => intersectionScan rest (real ++ [realRange tc])
      | Val (ofUnion tc) => intersectionScan rest (real ++ tc)
      | Nil => Panic unknownConstraintType
      end
  end.

(** The call [car.Intersect(c)] on two interface values.  The second loop
    runs only after the first one has met no nil, so that the nil cases are
    never reached; see [intersectionScan_nonnil]. *)
Definition callIntersect (car c : iface) : result iface :=
  match car, c with
  | Val a, Val b => Ok (Val (Intersect a b))
  | _, _ => Panic nilDereference
  end.

(** The second loop of [Intersection] (lines 174-182). *)
Fixpoint intersectFold (car : iface) (cdr : list iface) : result iface :=
  match cdr with
  | [] => Ok car
  | c :: rest =>
      car' ← callIntersect car c;
      if IsNone car' then Ok None' else intersectFold car' rest
  end.

Definition Intersection (cg : list iface) : result iface :=
  match cg with
  | [] => Ok None'
  | [c] => Ok c
  | car :: cdr =>
      s ← intersectionScan cg [];
      match s with
      | Returned c => Ok c
      | Gathered real =>
          let real := sortList real in
          intersectFold car cdr
      end
  end.
End Intersection.

(** ** [Union] *)

Section Union.
Context {Version rangeConstraint : Type}.
#[local] Abbreviation Constraint := (Constraint Version rangeConstraint).
#[local] Abbreviation iface := (iface Version rangeConstraint).
#[local] Abbreviation realConstraint := (realConstraint Version rangeConstraint).
#[local] Abbreviation constraintList := (constraintList Version rangeConstraint).
#[local] Abbreviation unionConstraint := (unionConstraint Version rangeConstraint).

Variable sortList : constraintList → constraintList.

(** The [Equal] method of [Version]. *)
Variable versionEqual : Version → Version → bool.

(** [rangeConstraint.Union] and [rangeConstraint.MatchesAny]. *)
Variable rangeUnion : rangeConstraint → Constraint → Constraint.
Variable rangeMatchesAny : rangeConstraint → Constraint → bool.

(** [areAdjacent], called on two ranges. *)
Variable areAdjacent : rangeConstraint → rangeConstraint → bool.

(** The first loop of [Union] (lines 206-228). *)
Fixpoint unionScan (cg : list iface) (real : constraintList)
    : result (scanned (Version:=Version) (rangeConstraint:=rangeConstraint)) :=
  match cg with
  | [] => Ok (Gathered real)
  | c :: rest =>
      match c with
      | Val any => Ok (Returned c)
      | Val none => unionScan rest real
      | Val (ofVersion tc) => unionScan rest (real ++ [realVersion tc])
      | Val (ofRange tc) => unionScan rest (real ++ [realRange tc])
      | Val (ofUnion tc) => unionScan rest (real ++ tc)
      | Nil => Panic unknownConstraintType
      end
  end.

(** [nuc[:len(nuc)-1]] and [nuc[len(nuc)-1]] of a non-empty [nuc]. *)
Fixpoint splitLast (nuc : unionConstraint) : option (unionConstraint * realConstraint) :=
  match nuc with
  | [] => None
  | [x] => Some ([], x)
  | x :: rest => prod_map (cons x) id <$> splitLast rest
  end.

(** One iteration of the merge loop (lines 236-288): [c] is the next
    member of the sorted list and [nuc] the members accumulated so far. *)
Definition mergeStep (nuc : unionConstraint) (c : realConstraint) : result unionConstraint :=
  match splitLast nuc with
  | None => Ok (nuc ++ [c])
  | Some (front, last) =>
      match last, c with
      | realVersion lt, realVersion ct =>
          if negb (versionEqual lt ct) then Ok (nuc ++ [realVersion ct]) else Ok nuc
      | realVersion lt, realRange ct => Ok (nuc ++ [c])
      | realRange lt, realVersion ct =>
          let c2 := rangeUnion lt (ofVersion ct) in
          match asReal c2 with
          | Some crc => Ok (front ++ [crc])
          | None => u ← asUnion c2; Ok (front ++ u)
          end
      | realRange lt, realRange ct =>
          if rangeMatchesAny lt (ofRange ct) || areAdjacent lt ct
          then
            match asReal (rangeUnion lt (ofRange ct)) with
            | Some merged => Ok (front ++ [merged])
            | None => Panic interfaceConversion
            end
          else Ok (nuc ++ [c])
      end
  end.

(** The merge loop over the sorted members. *)
Fixpoint mergeLoop (nuc : unionConstraint) (real : constraintList) : result unionConstraint :=
  match real with
  | [] => Ok nuc
  | c :: rest => nuc' ← mergeStep nuc c; mergeLoop nuc' rest
  end.

Definition Union (cg : list iface) : result iface :=
  match cg with
  | [] => Ok None'
  | [c] => Ok c
  | _ =>
      s ← unionScan cg [];
      match s with
      | Returned c => Ok c
      | Gathered real =>
          nuc ← mergeLoop [] (sortList real);
          Ok (wrapMembers nuc)
      end
  end.
End Union.

(** ** [NewConstraint] and its cache *)

(** The package-level variables [cacheConstraints] and [constraintCache]. *)
Record cache (Version rangeConstraint : Type) : Type := Cache {
  cacheConstraints : bool;
  constraintCache : gmap string (iface Version rangeConstraint)
}.

Arguments Cache {Version rangeConstraint} _ _.
Arguments cacheConstraints {Version rangeConstraint} _.
Arguments constraintCache {Version rangeConstraint} _.

(** The read of lines 98-103 and the write of lines 125-127, both under
    [cacheConstraints]. *)
Definition cacheLookup {Version rangeConstraint : Type}
    (st : cache Version rangeConstraint) (input : string)
    : option (iface Version rangeConstraint) :=
  if cacheConstraints st then constraintCache st !! input else None.

Definition cacheStore {Version rangeConstraint : Type}
    (st : cache Version rangeConstraint) (input : string)
    (final : iface Version rangeConstraint) : cache Version rangeConstraint :=
  if cacheConstraints st
  then Cache (cacheConstraints st) (<[input := final]> (constraintCache st))
  else st.

(** The package as it is initialised: caching on, nothing cached. *)
Definition initialCache {Version rangeConstraint : Type} : cache Version rangeConstraint :=
  Cache true ∅.

Section NewConstraint.
Context {Version rangeConstraint error : Type}.
#[local] Abbreviation Constraint := (Constraint Version rangeConstraint).
#[local] Abbreviation iface := (iface Version rangeConstraint).
#[local] Abbreviation constraintList := (constraintList Version rangeConstraint).
#[local] Abbreviation cache := (cache Version rangeConstraint).

Variable sortList : constraintList → constraintList.
Variable Intersect : Constraint → Constraint → Constraint.
Variable versionEqual : Version → Version → bool.
Variable rangeUnion : rangeConstraint → Constraint → Constraint.
Variable rangeMatchesAny : rangeConstraint → Constraint → bool.
Variable areAdjacent : rangeConstraint → rangeConstraint → bool.

(** [rewriteRange] turns hyphen ranges into comparisons; [parseConstraint]
    parses one comparator token into a constraint or an error. *)
Variable rewriteRange : string → string.
Variable parseConstraint : string → error + Constraint.

#[local] Abbreviation Intersection := (Intersection sortList Intersect).
#[local] Abbreviation Union :=
  (Union sortList versionEqual rangeUnion rangeMatchesAny areAdjacent).

(** The inner loop (lines 113-120): the members of one AND-group, or the
    error of the first member that does not parse. *)
Fixpoint parseMembers (cs : list string) : error + list iface :=
  match cs with
  | [] => inr []
  | s :: rest =>
      match parseConstraint s with
      | inl err => inl err
      | inr pc =>
          match parseMembers rest with
          | inl err => inl err
          | inr result => inr (Val pc :: result)
          end
      end
  end.

(** The outer loop (lines 110-122): each OR-group is parsed and
    intersected before the next one is looked at. *)
Fixpoint parseGroups (ors : list string) : result (error + list iface) :=
  match ors with
  | [] => Ok (inr [])
  | v :: rest =>
      match parseMembers (Split v ",") with
      | inl err => Ok (inl err)
      | inr members =>
          g ← Intersection members;
          r ← parseGroups rest;
          match r with
          | inl err => Ok (inl err)
          | inr or => Ok (inr (g :: or))
          end
      end
  end.

(** [NewConstraint] returns the pair [(Constraint, error)], a nil error
    being [None], and leaves the package variables in a new state. *)
Definition NewConstraint (st : cache) (input : string)
    : result (cache * (iface * option error)) :=
  match cacheLookup st input with
  | Some final => Ok (st, (final, None))
  | None =>
      let c := rewriteRange input in
      let ors := Split c "||" in
      r ← parseGroups ors;
      match r with
      | inl err => Ok (st, (Nil, Some err))
      | inr or =>
          final ← Union or;
          Ok (cacheStore st input final, (final, None))
      end
  end.
End NewConstraint.

(** ** Matching

    The [Matches] methods of the five variants are not in constraints.go.
    How a Range matches is left to [rangeMatches]; [true] stands for a nil
    error. *)

Section Matching.
Context {Version rangeConstraint : Type}.
Variable versionEqual : Version → Version → bool.
Variable rangeMatches : rangeConstraint → Version → bool.

(** Modelled from the spec: the [Matches] method of a Point and of a Range.
    A Point matches exactly one version, the one equal to it. *)
Definition matchesReal (m : realConstraint Version rangeConstraint) (v : Version) : bool :=
  match m with
  | realVersion p => versionEqual p v
  | realRange r => rangeMatches r v
  end.

(** Modelled from the spec: the [Matches] method of the five variants.
    Universal matches every version and Empty none; a UnionSet matches the
    versions that one of its members matches. *)
Definition matches (c : Constraint Version rangeConstraint) (v : Version) : bool :=
  match c with
  | any => true
  | none => false
  | ofVersion p => versionEqual p v
  | ofRange r => rangeMatches r v
  | ofUnion u => existsb (λ m, matchesReal m v) u
  end.

(** A nil interface value matches nothing: the call would panic. *)
Definition matchesIface (c : iface Version rangeConstraint) (v : Version) : bool :=
  match c with
  | Nil => false
  | Val c => matches c v
  end.
End Matching.

(** ** A model of the collaborators

    The rest of the package, as the specification describes it, over
    versions that are plain natural numbers.  It is used to run the three
    functions on concrete inputs; the general theorems do not depend on
    it. *)

Module SpecModel.

(** Modelled from the spec: a Version is an opaque, totally ordered,
    equality-comparable value.  Natural numbers are taken, the number [n]
    standing for the release [n.0.0]. *)
Definition Version : Type := nat.

Definition versionEqual (a b : Version) : bool := Nat.eqb a b.

(** Modelled from the spec: a Range has a lower and an upper bound, each
    inclusive, exclusive or absent. *)
Inductive bound : Type :=
  | Unbounded
  | Incl (v : Version)
  | Excl (v : Version).

Record rangeConstraint : Type := Range { lower : bound; upper : bound }.

(** The range [>=lo, <hi]. *)
Definition fromTo (lo hi : Version) : rangeConstraint := Range (Incl lo) (Excl hi).

Abbreviation Constraint := (Constraint Version rangeConstraint).
Abbreviation realConstraint := (realConstraint Version rangeConstraint).
Abbreviation iface := (iface Version rangeConstraint).

Definition aboveLower (b : bound) (v : Version) : bool :=
  match b with
  | Unbounded => true
  | Incl l => l <=? v
  | Excl l => l <? v
  end.

Definition belowUpper (b : bound) (v : Version) : bool :=
  match b with
  | Unbounded => true
  | Incl u => v <=? u
  | Excl u => v <? u
  end.

(** Modelled from the spec: a Range matches all versions within its
    bounds. *)
Definition rangeMatches (r : rangeConstraint) (v : Version) : bool :=
  aboveLower (lower r) v && belowUpper (upper r) v.

(** The bounds leave room for a version: the lower bound is below the
    upper one, or both are inclusive at the same version. *)
Definition boundsMeet (lo hi : bound) : bool :=
  match lo, hi with
  | Unbounded, _ | _, Unbounded => true
  | Incl l, Incl u => l <=? u
  | Incl l, Excl u | Excl l, Incl u | Excl l, Excl u => l <? u
  end.

(** The tightest of two lower bounds and of two upper bounds. *)
Definition tighterLower (a b : bound) : bound :=
  match a, b with
  | Unbounded, _ => b
  | _, Unbounded => a
  | Incl x, Incl y => Incl (x `max` y)
  | Excl x, Excl y => Excl (x `max` y)
  | Incl x, Excl y => if x <=? y then Excl y else Incl x
  | Excl x, Incl y => if y <=? x then Excl x else Incl y
  end.

Definition tighterUpper (a b : bound) : bound :=
  match a, b with
  | Unbounded, _ => b
  | _, Unbounded => a
  | Incl x, Incl y => Incl (x `min` y)
  | Excl x, Excl y => Excl (x `min` y)
  | Incl x, Excl y => if y <=? x then Excl y else Incl x
  | Excl x, Incl y => if x <=? y then Excl x else Incl y
  end.

(** The loosest of two lower bounds and of two upper bounds. *)
Definition looserLower (a b : bound) : bound :=
  match a, b with
  | Unbounded, _ | _, Unbounded => Unbounded
  | Incl x, Incl y => Incl (x `min` y)
  | Excl x, Excl y => Excl (x `min` y)
  | Incl x, Excl y => if x <=? y then Incl x else Excl y
  | Excl x, Incl y => if y <=? x then Incl y else Excl x
  end.

Definition looserUpper (a b : bound) : bound :=
  match a, b with
  | Unbounded, _ | _, Unbounded => Unbounded
  | Incl x, Incl y => Incl (x `max` y)
  | Excl x, Excl y => Excl (x `max` y)
  | Incl x, Excl y => if y <=? x then Incl x else Excl y
  | Excl x, Incl y => if x <=? y then Incl y else Excl x
  end.

(** Modelled from the spec: the pairwise [Intersect] of Points and Ranges.
    Two Points: Empty unless equal, else that Point.  Point and Range: the
    Point if within bounds, else Empty.  Two Ranges: the overlapping
    sub-interval, or Empty if the intervals do not overlap. *)
Definition intersectReal (a b : realConstraint) : Constraint :=
  match a, b with
  | realVersion p, realVersion q => if versionEqual p q then ofVersion p else none
  | realVersion p, realRange r | realRange r, realVersion p =>
      if rangeMatches r p then ofVersion p else none
  | realRange r, realRange s =>
      let lo := tighterLower (lower r) (lower s) in
      let hi := tighterUpper (upper r) (upper s) in
      if boundsMeet lo hi then ofRange (Range lo hi) else none
  end.

(** A list of members as one constraint. *)
Definition collapse (u : list realConstraint) : Constraint :=
  match u with
  | [] => none
  | [m] => ofReal m
  | _ => ofUnion u
  end.

(** Modelled from the spec: the [Intersect] method.  Universal is the
    identity and Empty absorbing; a UnionSet is flattened to its members,
    which are intersected pairwise. *)
Definition Intersect (a b : Constraint) : Constraint :=
  match a, b with
  | any, _ => b
  | _, any => a
  | none, _ | _, none => none
  | _, _ =>
      collapse (x ← members a; y ← members b; members (intersectReal x y))
  end.

(** Modelled from the spec: [MatchesAny] reports whether the intersection
    is non-Empty. *)
Definition rangeMatchesAny (r : rangeConstraint) (c : Constraint) : bool :=
  negb (IsNone (Val (Intersect (ofRange r) c))).

(** An upper bound and a lower bound with no version left out between
    them: the same version with one of the two inclusive, or two inclusive
    bounds of which the second is the successor of the first. *)
Definition touching (hi lo : bound) : bool :=
  match hi, lo with
  | Incl u, Incl l => (u =? l) || (l =? S u)
  | Incl u, Excl l | Excl u, Incl l => u =? l
  | _, _ => false
  end.

(** Modelled from the spec: two ranges are adjacent when the upper bound of
    one and the lower bound of the other leave no version between them.
    Every Range is required to have its lower bound below its upper bound;
    a record that does not is adjacent to nothing. *)
Definition areAdjacent (a b : rangeConstraint) : bool :=
  boundsMeet (lower a) (upper a) && boundsMeet (lower b) (upper b)
  && (touching (upper a) (lower b) || touching (upper b) (lower a)).

(** Modelled from the spec: the position of a member in the sorted list is
    its effective lower bound: a Point's own value, and first of all a
    Range unbounded below.  On a tie a Range with an inclusive lower bound
    comes before the Point and a Range with an exclusive one after it. *)
Definition position (m : realConstraint) : nat :=
  match m with
  | realVersion v => 3 * v + 2
  | realRange r =>
      match lower r with
      | Unbounded => 0
      | Incl l => 3 * l + 1
      | Excl l => 3 * l + 3
      end
  end.

Fixpoint insertSorted (m : realConstraint) (l : list realConstraint) : list realConstraint :=
  match l with
  | [] => [m]
  | x :: rest => if position m <? position x then m :: l else x :: insertSorted m rest
  end.

Definition sortList (l : list realConstraint) : list realConstraint :=
  foldr insertSorted [] l.

(** Modelled from the spec: the [Union] method of a Range.  With a Point
    inside the range the result is the range, with a Point that touches one
    of its bounds the range widened to include it, and otherwise the two in
    sorted order.  With a Range that overlaps it or is adjacent to it the
    result is the merged Range, and otherwise the two in sorted order. *)
Definition rangeUnion (r : rangeConstraint) (c : Constraint) : Constraint :=
  match c with
  | any => any
  | none => ofRange r
  | ofVersion v =>
      if rangeMatches r v then ofRange r
      else if boundsMeet (lower r) (upper r) && touching (Incl v) (lower r)
      then ofRange (Range (Incl v) (upper r))
      else if boundsMeet (lower r) (upper r) && touching (upper r) (Incl v)
      then ofRange (Range (lower r) (Incl v))
      else ofUnion (sortList [realRange r; realVersion v])
  | ofRange s =>
      if rangeMatchesAny r (ofRange s) || areAdjacent r s
      then ofRange (Range (looserLower (lower r) (lower s))
                          (looserUpper (upper r) (upper s)))
      else ofUnion (sortList [realRange r; realRange s])
  | ofUnion u => ofUnion (realRange r :: u)
  end.
End SpecModel.

(** ** A sample parser

    A token parser and a hyphen-range rewriter for the versions of
    [SpecModel], so that [NewConstraint] can be run on expression strings.
    A token is an operator followed by a decimal number. *)

Module Sample.
Import SpecModel.

Definition isSpace (c : Ascii.ascii) : bool :=
  let n := Ascii.nat_of_ascii c in (n =? 32) || (n =? 9).

Fixpoint trimLeft (s : string) : string :=
  match s with
  | String c rest => if isSpace c then trimLeft rest else s
  | EmptyString => s
  end.

Definition trim (s : string) : string :=
  String.rev (trimLeft (String.rev (trimLeft s))).

Definition digit (c : Ascii.ascii) : option nat :=
  let n := Ascii.nat_of_ascii c in
  if (48 <=? n) && (n <=? 57) then Some (n - 48) else None.

Fixpoint readDigits (s : string) (acc : nat) : option nat :=
  match s with
  | EmptyString => Some acc
  | String c rest => d ← digit c; readDigits rest (10 * acc + d)
  end.

Definition readVersion (s : string) : option Version :=
  match s with
  | EmptyString => None
  | _ => readDigits s 0
  end.

(** The operators of the grammar, the longer ones first. *)
Definition operators : list string :=
  [">="; "=>"; "<="; "=<"; "!="; "~>"; "="; ">"; "<"; "~"; "^"; ""]%string.

Fixpoint dropChars (n : nat) (s : string) : string :=
  match n, s with
  | S k, String _ rest => dropChars k rest
  | _, _ => s
  end.

Definition splitOperator (s : string) : string * string :=
  match filter (λ op, String.prefix op s = true) operators with
  | op :: _ => (op, dropChars (String.length op) s)
  | [] => (EmptyString, s)
  end.

Definition comparison (op : string) (v : Version) : Constraint :=
  if bool_decide (op = ">") then ofRange (Range (Excl v) Unbounded)
  else if bool_decide (op = ">=" ∨ op = "=>") then ofRange (Range (Incl v) Unbounded)
  else if bool_decide (op = "<") then ofRange (Range Unbounded (Excl v))
  else if bool_decide (op = "<=" ∨ op = "=<") then ofRange (Range Unbounded (Incl v))
  else if bool_decide (op = "!=")
  then ofUnion [realRange (Range Unbounded (Excl v)); realRange (Range (Excl v) Unbounded)]
  else if bool_decide (op = "~" ∨ op = "~>" ∨ op = "^")
  then ofRange (Range (Incl v) (Excl (S v)))
  else ofVersion v.

Definition parseConstraint (s : string) : string + Constraint :=
  let (op, rest) := splitOperator (trim s) in
  match readVersion (trimLeft rest) with
  | Some v => inr (comparison op v)
  | None => inl ("improper constraint: " +:+ s)
  end.

Fixpoint join (sep : string) (l : list string) : string :=
  match l with
  | [] => EmptyString
  | [s] => s
  | s :: rest => s +:+ sep +:+ join sep rest
  end.

(** A member of the form [A - B] becomes [>=A, <=B]. *)
Definition rewriteMember (m : string) : string :=
  match Split m " - " with
  | [a; b] => ">=" +:+ a +:+ ", <=" +:+ b
  | _ => m
  end.

Definition rewriteRange (s : string) : string :=
  join "||" ((λ g, join "," (rewriteMember <$> Split g ",")) <$> Split s "||").

Abbreviation Intersection := (Intersection sortList Intersect).
Abbreviation Union :=
  (Union sortList versionEqual rangeUnion rangeMatchesAny areAdjacent).
Abbreviation mergeStep := (mergeStep versionEqual rangeUnion rangeMatchesAny areAdjacent).
Abbreviation NewConstraint :=
  (NewConstraint sortList Intersect versionEqual rangeUnion rangeMatchesAny areAdjacent
     rewriteRange parseConstraint).
End Sample.

(** ** A variant of the model

    A [Union] method of a Range that answers Universal when the merged range
    has no bound left, as an implementation that keeps Universal canonical
    would.  It serves to run the merge loop on an answer that is neither a
    Point nor a Range. *)

Module OpenModel.
Import SpecModel.

Definition rangeUnion (r : rangeConstraint) (c : Constraint) : Constraint :=
  match SpecModel.rangeUnion r c with
  | ofRange (Range Unbounded Unbounded) => any
  | answer => answer
  end.

Abbreviation Union :=
  (Union sortList versionEqual rangeUnion rangeMatchesAny areAdjacent).
End OpenModel.

(** ** What the specification says of the three functions

    The definitions below follow the words of the specification; the
    theorems compare the functions of constraints.go with them. *)

Section Specification.
Context {Version rangeConstraint error : Type}.
#[local] Abbreviation Constraint := (Constraint Version rangeConstraint).
#[local] Abbreviation iface := (iface Version rangeConstraint).
#[local] Abbreviation constraintList := (constraintList Version rangeConstraint).
#[local] Abbreviation cache := (cache Version rangeConstraint).

Variable sortList : constraintList → constraintList.
Variable Intersect : Constraint → Constraint → Constraint.
Variable versionEqual : Version → Version → bool.
Variable rangeMatches : rangeConstraint → Version → bool.
Variable rangeUnion : rangeConstraint → Constraint → Constraint.
Variable rangeMatchesAny : rangeConstraint → Constraint → bool.
Variable areAdjacent : rangeConstraint → rangeConstraint → bool.
Variable rewriteRange : string → string.
Variable parseConstraint : string → error + Constraint.

(** The plain fold of section 4.2: pairwise, left to right, with each
    pair's own [Intersect], Empty as soon as a partial result is Empty. *)
Fixpoint pairwiseFold (acc : Constraint) (rest : list Constraint) : Constraint :=
  match rest with
  | [] => acc
  | c :: rest =>
      match Intersect acc c with
      | none => none
      | acc' => pairwiseFold acc' rest
      end
  end.

Definition foldOfInputs (cs : list Constraint) : Constraint :=
  match cs with
  | [] => none
  | c :: rest => pairwiseFold c rest
  end.

(** What the merge loop of [Union] keeps of a sorted run of Points: a Point
    is dropped when [Equal] to the last one kept (lines 246-250). *)
Fixpoint keptPoints (last : Version) (ps : list Version) : list Version :=
  match ps with
  | [] => []
  | p :: ps => if versionEqual last p then keptPoints last ps else p :: keptPoints p ps
  end.

Definition distinctPoints (ps : list Version) : list Version :=
  match ps with
  | [] => []
  | p :: ps => p :: keptPoints p ps
  end.

(** Steps 1 to 3 of section 4.1: rewrite, split on [||], split each
    OR-group on [,]. *)
Definition splitExpression (input : string) : list (list string) :=
  (λ g, Split g ",") <$> Split (rewriteRange input) "||".

(** Step 4: every AND-member is parsed; the first one that fails, in
    reading order, gives the error. *)
Fixpoint parseGroup (members : list string) : error + list Constraint :=
  match members with
  | [] => inr []
  | m :: rest =>
      match parseConstraint m, parseGroup rest with
      | inl err, _ => inl err
      | inr _, inl err => inl err
      | inr c, inr cs => inr (c :: cs)
      end
  end.

Fixpoint parseAll (groups : list (list string)) : error + list (list Constraint) :=
  match groups with
  | [] => inr []
  | g :: rest =>
      match parseGroup g, parseAll rest with
      | inl err, _ => inl err
      | inr _, inl err => inl err
      | inr cs, inr css => inr (cs :: css)
      end
  end.

(** Steps 5 and 6: each AND-group is folded with [Intersection], and the
    results with [Union]. *)
Definition combine (groups : list (list Constraint)) : result iface :=
  ands ← mapM (λ g, Intersection sortList Intersect (Val <$> g)) groups;
  Union sortList versionEqual rangeUnion rangeMatchesAny areAdjacent ands.

(** The whole procedure, as the pair that [NewConstraint] returns. *)
Definition parseExpression (input : string) : result (iface * option error) :=
  match parseAll (splitExpression input) with
  | inl err => Ok (Nil, Some err)
  | inr groups => final ← combine groups; Ok (final, None)
  end.

(** The cache holds, for an expression, only what the procedure gives for
    it: so it is when the package starts, and so [NewConstraint] leaves
    it. *)
Definition cacheConsistent (st : cache) : Prop :=
  ∀ s final, constraintCache st !! s = Some final →
    parseExpression s = Ok (final, None).

(** Two outcomes are constraints that match exactly the same versions. *)
Definition sameVersions (r1 r2 : result iface) : Prop :=
  ∃ x y, r1 = Ok (Val x) ∧ r2 = Ok (Val y) ∧
    ∀ v, matches versionEqual rangeMatches x v = matches versionEqual rangeMatches y v.
End Specification.

(** The states of the package variables that calls of [NewConstraint] can
    lead to, from the state the package starts in. *)

Section Reachable.
Context {Version rangeConstraint error : Type}.
#[local] Abbreviation Constraint := (Constraint Version rangeConstraint).
#[local] Abbreviation constraintList := (constraintList Version rangeConstraint).
#[local] Abbreviation cache := (cache Version rangeConstraint).

Variable sortList : constraintList → constraintList.
Variable Intersect : Constraint → Constraint → Constraint.
Variable versionEqual : Version → Version → bool.
Variable rangeUnion : rangeConstraint → Constraint → Constraint.
Variable rangeMatchesAny : rangeConstraint → Constraint → bool.
Variable areAdjacent : rangeConstraint → rangeConstraint → bool.
Variable rewriteRange : string → string.
Variable parseConstraint : string → error + Constraint.

Inductive reachable : cache → Prop :=
  | reachable_initial : reachable initialCache
  | reachable_call (st st' : cache) (input : string) r :
      reachable st →
      NewConstraint sortList Intersect versionEqual rangeUnion rangeMatchesAny areAdjacent
        rewriteRange parseConstraint st input = Ok (st', r) →
      reachable st'.
End Reachable.

(** * Properties *)

(** ** The first loops on values of the five variants *)

Section Scans.
Context {Version rangeConstraint : Type}.
#[local] Abbreviation Constraint := (Constraint Version rangeConstraint).
#[local] Abbreviation iface := (iface Version rangeConstraint).
#[local] Abbreviation constraintList := (constraintList Version rangeConstraint).

Lemma intersectionScan_variants (cs : list Constraint) (real : constraintList) :
  (none ∈ cs ∧ intersectionScan (Val <$> cs) real = Ok (Returned (Val none)))
  ∨ ((none ∉ cs) ∧
     intersectionScan (Val <$> cs) real = Ok (Gathered (real ++ (cs ≫= members)))).
Proof.
  revert real. induction cs as [|c cs IH]; intros real.
  - right. split; [by apply not_elem_of_nil | by simpl; rewrite app_nil_r].
  - destruct c as [| |v|r|u]; csimpl.
    2: { left. split; [by left | done]. }
    all: match goal with
         | |- context [intersectionScan _ ?r] => destruct (IH r) as [[Hin Hs]|[Hnin Hs]]
         end;
      try (left; split; [by right | exact Hs]);
      right; (split; [rewrite not_elem_of_cons; by split |]);
      rewrite Hs, <- ?app_assoc; done.
Qed.

Lemma unionScan_variants (cs : list Constraint) (real : constraintList) :
  (any ∈ cs ∧ unionScan (Val <$> cs) real = Ok (Returned (Val any)))
  ∨ ((any ∉ cs) ∧
     unionScan (Val <$> cs) real = Ok (Gathered (real ++ (cs ≫= members)))).
Proof.
  revert real. induction cs as [|c cs IH]; intros real.
  - right. split; [by apply not_elem_of_nil | by simpl; rewrite app_nil_r].
  - destruct c as [| |v|r|u]; csimpl.
    1: { left. split; [by left | done]. }
    all: match goal with
         | |- context [unionScan _ ?r] => destruct (IH r) as [[Hin Hs]|[Hnin Hs]]
         end;
      try (left; split; [by right | exact Hs]);
      right; (split; [rewrite not_elem_of_cons; by split |]);
      rewrite Hs, <- ?app_assoc; done.
Qed.

(** A first loop that runs to its end has met no nil. *)
Lemma intersectionScan_nonnil (cg : list iface) (real real' : constraintList) :
  intersectionScan cg real = Ok (Gathered real') → Forall (λ c, c ≠ Nil) cg.
Proof.
  revert real. induction cg as [|c cg IH]; intros real; [by constructor |].
  destruct c as [|[| |v|r|u]]; simpl; try done;
    intros H%IH; by constructor.
Qed.

Lemma unionScan_nonnil (cg : list iface) (real real' : constraintList) :
  unionScan cg real = Ok (Gathered real') → Forall (λ c, c ≠ Nil) cg.
Proof.
  revert real. induction cg as [|c cg IH]; intros real; [by constructor |].
  destruct c as [|[| |v|r|u]]; simpl; try done;
    intros H%IH; by constructor.
Qed.

Lemma Empty_member (cs : list Constraint) :
  existsb (λ c, IsNone (Val c)) cs = true ↔ none ∈ cs.
Proof.
  induction cs as [|c cs IH]; simpl.
  - split; [done | by intros ?%elem_of_nil].
  - rewrite elem_of_cons, orb_true_iff, IH.
    destruct c; simpl; intuition congruence.
Qed.

Lemma Universal_member (cs : list Constraint) :
  existsb (λ c, IsAny (Val c)) cs = true ↔ any ∈ cs.
Proof.
  induction cs as [|c cs IH]; simpl.
  - split; [done | by intros ?%elem_of_nil].
  - rewrite elem_of_cons, orb_true_iff, IH.
    destruct c; simpl; intuition congruence.
Qed.
End Scans.

Lemma variants_of_nonnil {Version rangeConstraint : Type}
    (cg : list (iface Version rangeConstraint)) :
  Forall (λ c, c ≠ Nil) cg → ∃ cs, cg = Val <$> cs.
Proof.
  induction 1 as [|c cg Hc _ [cs ->]]; [by exists [] |].
  destruct c as [|c]; [done |]. by exists (c :: cs).
Qed.

(** ** [Intersection] *)

Section IntersectionProperties.
Context {Version rangeConstraint : Type}.
#[local] Abbreviation Constraint := (Constraint Version rangeConstraint).
#[local] Abbreviation iface := (iface Version rangeConstraint).
#[local] Abbreviation constraintList := (constraintList Version rangeConstraint).

Variable sortList : constraintList → constraintList.
Variable Intersect : Constraint → Constraint → Constraint.

(** On variants the second loop is the plain fold. *)
Lemma intersectFold_variants (a : Constraint) (cs : list Constraint) :
  intersectFold Intersect (Val a) (Val <$> cs) = Ok (Val (pairwiseFold Intersect a cs)).
Proof.
  revert a. induction cs as [|c cs IH]; intros a; csimpl; [done |].
  destruct (Intersect a c); simpl; by rewrite ?IH.
Qed.

Lemma Intersection_two_or_more (a b : Constraint) (cs : list Constraint) :
  Intersection sortList Intersect (Val <$> a :: b :: cs) =
    if existsb (λ c, IsNone (Val c)) (a :: b :: cs)
    then Ok (Val none)
    else Ok (Val (pairwiseFold Intersect a (b :: cs))).
Proof.
  unfold Intersection. rewrite !fmap_cons.
  change (Val a :: Val b :: (Val <$> cs)) with (Val <$> a :: b :: cs) at 1.
  destruct (intersectionScan_variants (a :: b :: cs) []) as [[Hin ->]|[Hnin ->]].
  - apply Empty_member in Hin. by rewrite Hin.
  - rewrite <- Empty_member in Hnin. apply not_true_is_false in Hnin. rewrite Hnin.
    change (Val b :: (Val <$> cs)) with (Val <$> b :: cs).
    apply intersectFold_variants.
Qed.

Lemma pairwiseFold_Empty_member (a : Constraint) (cs : list Constraint) :
  (∀ c, Intersect c none = none) → none ∈ cs → pairwiseFold Intersect a cs = none.
Proof.
  intros Hr. revert a. induction cs as [|c cs IH]; intros a Hin.
  - by apply elem_of_nil in Hin.
  - apply elem_of_cons in Hin as [<-|Hin]; simpl; [by rewrite Hr |].
    destruct (Intersect a c); auto.
Qed.

Lemma foldOfInputs_Empty_member (cs : list Constraint) :
  (∀ c, Intersect none c = none) → (∀ c, Intersect c none = none) →
  none ∈ cs → foldOfInputs Intersect cs = none.
Proof.
  intros Hl Hr Hin. destruct cs as [|a cs]; [done |].
  apply elem_of_cons in Hin as [<-|Hin].
  - destruct cs as [|c cs]; simpl; [done | by rewrite Hl].
  - by apply pairwiseFold_Empty_member.
Qed.

(** On values of the five variants [Intersection] returns a value of the
    five variants. *)
Lemma Intersection_returns (cs : list Constraint) :
  ∃ c, Intersection sortList Intersect (Val <$> cs) = Ok (Val c).
Proof.
  destruct cs as [|a [|b cs]]; [by exists none | by exists a |].
  rewrite Intersection_two_or_more. case_match; by eexists.
Qed.
End IntersectionProperties.

Section IntersectionTheorems.
Context {Version rangeConstraint : Type}.
#[local] Abbreviation Constraint := (Constraint Version rangeConstraint).
#[local] Abbreviation iface := (iface Version rangeConstraint).
#[local] Abbreviation constraintList := (constraintList Version rangeConstraint).

Variable Intersect : Constraint → Constraint → Constraint.

(** C5.  [Intersection] of no constraint is Empty; of a single constraint
    it is that constraint, unchanged; of a sequence that contains an Empty
    constraint it is Empty. *)
Theorem Intersection_zero_one_Empty
    (sortList : constraintList → constraintList)
    (c : iface) (cs : list Constraint) (Hcs : none ∈ cs) :
  Intersection sortList Intersect [] = Ok None'
  ∧ Intersection sortList Intersect [c] = Ok c
  ∧ Intersection sortList Intersect (Val <$> cs) = Ok None'.
Proof.
  split_and!; [done | done |].
  destruct cs as [|a [|b cs]].
  - by apply elem_of_nil in Hcs.
  - by apply list_elem_of_singleton in Hcs as <-.
  - rewrite (Intersection_two_or_more sortList).
    apply Empty_member in Hcs. by rewrite Hcs.
Qed.

(** C2.  For two or more constraints the value of [Intersection] is the
    plain pairwise fold of the inputs, in their original order, that gives
    Empty as soon as a partial result is Empty; the sorted list has no
    part in it, whatever [sort.Sort] does.  Empty is taken to be absorbing
    for the [Intersect] methods. *)
Theorem Intersection_is_plain_fold
    (Hleft : ∀ c, Intersect none c = none)
    (Hright : ∀ c, Intersect c none = none)
    (sortList sortList' : constraintList → constraintList)
    (cs : list Constraint) (Hlen : 2 ≤ length cs) :
  Intersection sortList Intersect (Val <$> cs) = Ok (Val (foldOfInputs Intersect cs))
  ∧ ∀ cg : list iface,
      Intersection sortList' Intersect cg = Intersection sortList Intersect cg.
Proof.
  split; [| done].
  destruct cs as [|a [|b cs]]; simpl in Hlen; [lia | lia |].
  rewrite (Intersection_two_or_more sortList).
  destruct (existsb _ _) eqn:Hex; [| done].
  apply Empty_member in Hex.
  by rewrite foldOfInputs_Empty_member.
Qed.
End IntersectionTheorems.

(** ** The merge loop of [Union] *)

Lemma splitLast_snoc {Version rangeConstraint : Type}
    (front : unionConstraint Version rangeConstraint) last :
  splitLast (front ++ [last]) = Some (front, last).
Proof.
  induction front as [|x front IH]; [done |].
  change ((x :: front) ++ [last]) with (x :: (front ++ [last])).
  simpl. rewrite IH. by destruct front.
Qed.

Section MergeStep.
Context {Version rangeConstraint : Type}.
#[local] Abbreviation Constraint := (Constraint Version rangeConstraint).
#[local] Abbreviation iface := (iface Version rangeConstraint).
#[local] Abbreviation realConstraint := (realConstraint Version rangeConstraint).
#[local] Abbreviation unionConstraint := (unionConstraint Version rangeConstraint).

Variable versionEqual : Version → Version → bool.
Variable rangeUnion : rangeConstraint → Constraint → Constraint.
Variable rangeMatchesAny : rangeConstraint → Constraint → bool.
Variable areAdjacent : rangeConstraint → rangeConstraint → bool.

#[local] Abbreviation step :=
  (mergeStep versionEqual rangeUnion rangeMatchesAny areAdjacent).

Lemma mergeStep_first (c : realConstraint) : step [] c = Ok [c].
Proof. done. Qed.

Lemma mergeStep_Version_Version (front : unionConstraint) (lt ct : Version) :
  step (front ++ [realVersion lt]) (realVersion ct) =
    if versionEqual lt ct
    then Ok (front ++ [realVersion lt])
    else Ok (front ++ [realVersion lt; realVersion ct]).
Proof.
  unfold mergeStep. rewrite splitLast_snoc.
  destruct (versionEqual lt ct); simpl; [done |].
  by rewrite <- app_assoc.
Qed.

Lemma mergeStep_Version_Range (front : unionConstraint) (lt : Version) (ct : rangeConstraint) :
  step (front ++ [realVersion lt]) (realRange ct) =
    Ok (front ++ [realVersion lt; realRange ct]).
Proof. unfold mergeStep. rewrite splitLast_snoc. by rewrite <- app_assoc. Qed.

Lemma mergeStep_Range_Version (front : unionConstraint) (lt : rangeConstraint) (ct : Version) :
  step (front ++ [realRange lt]) (realVersion ct) =
    match rangeUnion lt (ofVersion ct) with
    | ofVersion p => Ok (front ++ [realVersion p])
    | ofRange m => Ok (front ++ [realRange m])
    | ofUnion u => Ok (front ++ u)
    | any | none => Panic interfaceConversion
    end.
Proof.
  unfold mergeStep. rewrite splitLast_snoc.
  by destruct (rangeUnion lt (ofVersion ct)).
Qed.

Lemma mergeStep_Range_Range (front : unionConstraint) (lt ct : rangeConstraint) :
  step (front ++ [realRange lt]) (realRange ct) =
    if rangeMatchesAny lt (ofRange ct) || areAdjacent lt ct
    then
      match rangeUnion lt (ofRange ct) with
      | ofVersion p => Ok (front ++ [realVersion p])
      | ofRange m => Ok (front ++ [realRange m])
      | any | none | ofUnion _ => Panic interfaceConversion
      end
    else Ok (front ++ [realRange lt; realRange ct]).
Proof.
  unfold mergeStep. rewrite splitLast_snoc.
  destruct (_ || _); [by destruct (rangeUnion lt (ofRange ct)) |].
  by rewrite <- app_assoc.
Qed.
End MergeStep.

(** ** [Union] *)

Section UnionProperties.
Context {Version rangeConstraint : Type}.
#[local] Abbreviation Constraint := (Constraint Version rangeConstraint).
#[local] Abbreviation iface := (iface Version rangeConstraint).
#[local] Abbreviation realConstraint := (realConstraint Version rangeConstraint).
#[local] Abbreviation constraintList := (constraintList Version rangeConstraint).
#[local] Abbreviation unionConstraint := (unionConstraint Version rangeConstraint).

Variable sortList : constraintList → constraintList.
Variable versionEqual : Version → Version → bool.
Variable rangeUnion : rangeConstraint → Constraint → Constraint.
Variable rangeMatchesAny : rangeConstraint → Constraint → bool.
Variable areAdjacent : rangeConstraint → rangeConstraint → bool.

#[local] Abbreviation step :=
  (mergeStep versionEqual rangeUnion rangeMatchesAny areAdjacent).
#[local] Abbreviation loop :=
  (mergeLoop versionEqual rangeUnion rangeMatchesAny areAdjacent).
#[local] Abbreviation union :=
  (Union sortList versionEqual rangeUnion rangeMatchesAny areAdjacent).

Lemma Union_two_or_more (a b : Constraint) (cs : list Constraint) :
  union (Val <$> a :: b :: cs) =
    if existsb (λ c, IsAny (Val c)) (a :: b :: cs)
    then Ok (Val any)
    else nuc ← loop [] (sortList ((a :: b :: cs) ≫= members)); Ok (wrapMembers nuc).
Proof.
  unfold Union. rewrite !fmap_cons.
  change (Val a :: Val b :: (Val <$> cs)) with (Val <$> a :: b :: cs).
  destruct (unionScan_variants (a :: b :: cs) []) as [[Hin ->]|[Hnin ->]].
  - apply Universal_member in Hin. by rewrite Hin.
  - rewrite <- Universal_member in Hnin. apply not_true_is_false in Hnin. rewrite Hnin.
    done.
Qed.

(** What does hold of the shape of the result: a [unionConstraint] that
    [Union] makes of two or more inputs never has exactly one member. *)
Lemma Union_never_wraps_one (cs : list Constraint) (u : unionConstraint) :
  2 ≤ length cs → union (Val <$> cs) = Ok (Val (ofUnion u)) → length u ≠ 1.
Proof.
  intros Hlen. destruct cs as [|a [|b cs]]; simpl in Hlen; [lia | lia |].
  rewrite Union_two_or_more. case_match; [done |].
  destruct (loop _ _) as [[|m [|m' nuc]]|]; simpl; try done.
  - by intros [= <-].
  - by destruct m.
  - by intros [= <-].
Qed.
End UnionProperties.

Section UnionTheorems.
Context {Version rangeConstraint : Type}.
#[local] Abbreviation Constraint := (Constraint Version rangeConstraint).
#[local] Abbreviation iface := (iface Version rangeConstraint).
#[local] Abbreviation realConstraint := (realConstraint Version rangeConstraint).
#[local] Abbreviation constraintList := (constraintList Version rangeConstraint).
#[local] Abbreviation unionConstraint := (unionConstraint Version rangeConstraint).

Variable sortList : constraintList → constraintList.
Variable versionEqual : Version → Version → bool.
Variable rangeUnion : rangeConstraint → Constraint → Constraint.
Variable rangeMatchesAny : rangeConstraint → Constraint → bool.
Variable areAdjacent : rangeConstraint → rangeConstraint → bool.

#[local] Abbreviation step :=
  (mergeStep versionEqual rangeUnion rangeMatchesAny areAdjacent).
#[local] Abbreviation union :=
  (Union sortList versionEqual rangeUnion rangeMatchesAny areAdjacent).

(** C1.  In the merge loop, when the last accumulated member is a Range
    and the next member is a Range: if the two overlap or are adjacent,
    the last member is replaced by their union, the merged Range, and
    otherwise the new Range is appended.  In particular, for two ranges
    that sort in the order given, are adjacent and have a Range as their
    union, [Union] returns that single Range; so it is for [>=1.0.0,
    <2.0.0] and [>=2.0.0, <3.0.0]. *)
Theorem Union_merges_Range_with_Range :
  (∀ (front : unionConstraint) (lt ct : rangeConstraint),
     step (front ++ [realRange lt]) (realRange ct) =
       if rangeMatchesAny lt (ofRange ct) || areAdjacent lt ct
       then
         match rangeUnion lt (ofRange ct) with
         | ofVersion p => Ok (front ++ [realVersion p])
         | ofRange merged => Ok (front ++ [realRange merged])
         | any | none | ofUnion _ => Panic interfaceConversion
         end
       else Ok (front ++ [realRange lt; realRange ct]))
  ∧ (∀ a b merged : rangeConstraint,
       sortList [realRange a; realRange b] = [realRange a; realRange b] →
       rangeMatchesAny a (ofRange b) || areAdjacent a b = true →
       rangeUnion a (ofRange b) = ofRange merged →
       union [Val (ofRange a); Val (ofRange b)] = Ok (Val (ofRange merged))).
Proof.
  split; [apply mergeStep_Range_Range |].
  intros a b merged Hsort Hadj Hunion.
  unfold Union. simpl. rewrite Hsort. simpl.
  unfold mergeStep. simpl. by rewrite Hadj, Hunion.
Qed.

(** C4, as the code has it.  When the last accumulated member is a Range
    and the next member is a Point, the loop takes the union of the two:
    a Point or a Range replaces the last member, and the members of a
    UnionSet are put in its place.  It is a Range that follows a Point
    that is always appended. *)
Theorem Union_merges_Range_with_Point :
  (∀ (front : unionConstraint) (lt : rangeConstraint) (ct : Version),
     step (front ++ [realRange lt]) (realVersion ct) =
       match rangeUnion lt (ofVersion ct) with
       | ofVersion p => Ok (front ++ [realVersion p])
       | ofRange m => Ok (front ++ [realRange m])
       | ofUnion u => Ok (front ++ u)
       | any | none => Panic interfaceConversion
       end)
  ∧ (∀ (front : unionConstraint) (lt : Version) (ct : rangeConstraint),
       step (front ++ [realVersion lt]) (realRange ct) =
         Ok (front ++ [realVersion lt; realRange ct])).
Proof. split; [apply mergeStep_Range_Version | apply mergeStep_Version_Range]. Qed.

(** C6.  [Union] of no constraint is Empty; of a single constraint it is
    that constraint, unchanged; of a sequence that contains a Universal
    constraint it is Universal. *)
Theorem Union_zero_one_Universal
    (c : iface) (cs : list Constraint) (Hcs : any ∈ cs) :
  union [] = Ok None'
  ∧ union [c] = Ok c
  ∧ union (Val <$> cs) = Ok Any.
Proof.
  split_and!; [done | done |].
  destruct cs as [|a [|b cs]].
  - by apply elem_of_nil in Hcs.
  - by apply list_elem_of_singleton in Hcs as <-.
  - rewrite Union_two_or_more.
    apply Universal_member in Hcs. by rewrite Hcs.
Qed.

(** C3, where the code departs from it.  [Union] of two or more Empty
    constraints is a [unionConstraint] with no member at all: the first
    loop drops them all, the merge loop has nothing to do, and the result
    is wrapped because its length is not one. *)
Theorem Union_of_Empty_inputs
    (Hsort : sortList [] = [])
    (cs : list Constraint) (Hcs : Forall (λ c, c = none) cs) (Hlen : 2 ≤ length cs) :
  union (Val <$> cs) = Ok (Val (ofUnion [])).
Proof.
  assert (any ∉ cs) as Hany.
  { intros Hin. by apply (proj1 (Forall_forall _ _) Hcs) in Hin. }
  assert (cs ≫= members = []) as Hreal.
  { clear Hlen Hany. induction Hcs as [|c cs -> _ IH]; [done |]. by rewrite bind_cons, IH. }
  destruct cs as [|a [|b cs]]; simpl in Hlen; [lia | lia |].
  rewrite Union_two_or_more.
  rewrite <- Universal_member in Hany. apply not_true_is_false in Hany.
  by rewrite Hany, Hreal, Hsort.
Qed.
End UnionTheorems.

(** ** [Union] returns

    The two type assertions of the merge loop succeed when the [Union]
    method of a Range answers as the comments of the loop expect: with a
    Point, it gives a Point, a Range or else a UnionSet; with a Range that
    overlaps the receiver or is adjacent to it, it gives a Point or a
    Range. *)

Section UnionReturns.
Context {Version rangeConstraint : Type}.
#[local] Abbreviation Constraint := (Constraint Version rangeConstraint).
#[local] Abbreviation iface := (iface Version rangeConstraint).
#[local] Abbreviation realConstraint := (realConstraint Version rangeConstraint).
#[local] Abbreviation constraintList := (constraintList Version rangeConstraint).
#[local] Abbreviation unionConstraint := (unionConstraint Version rangeConstraint).

Variable sortList : constraintList → constraintList.
Variable versionEqual : Version → Version → bool.
Variable rangeUnion : rangeConstraint → Constraint → Constraint.
Variable rangeMatchesAny : rangeConstraint → Constraint → bool.
Variable areAdjacent : rangeConstraint → rangeConstraint → bool.

#[local] Abbreviation step :=
  (mergeStep versionEqual rangeUnion rangeMatchesAny areAdjacent).
#[local] Abbreviation loop :=
  (mergeLoop versionEqual rangeUnion rangeMatchesAny areAdjacent).
#[local] Abbreviation union :=
  (Union sortList versionEqual rangeUnion rangeMatchesAny areAdjacent).

(** The merge loop has no unknown-type panic in it. *)
Lemma mergeStep_panic (nuc : unionConstraint) (c : realConstraint) (p : panic) :
  step nuc c = Panic p → p = interfaceConversion.
Proof.
  unfold mergeStep. intros H.
  repeat case_match; simplify_eq; try done.
  destruct (asUnion _) eqn:Hu; simplify_eq/=.
  unfold asUnion in Hu. by repeat case_match; simplify_eq.
Qed.

Lemma mergeLoop_panic (real : constraintList) (nuc : unionConstraint) (p : panic) :
  loop nuc real = Panic p → p = interfaceConversion.
Proof.
  revert nuc. induction real as [|c real IH]; intros nuc; simpl; [done |].
  destruct (step nuc c) as [nuc'|q] eqn:Hs; simpl.
  - apply IH.
  - intros [= <-]. by eapply mergeStep_panic.
Qed.

Lemma Union_no_unknown_type (cs : list Constraint) :
  union (Val <$> cs) ≠ Panic unknownConstraintType.
Proof.
  destruct cs as [|a [|b cs]]; [done | done |].
  rewrite Union_two_or_more. case_match; [done |].
  destruct (loop _ _) as [nuc|p] eqn:Hl; [done |].
  apply mergeLoop_panic in Hl as ->. done.
Qed.

Hypothesis Union_with_Point : ∀ r p,
  asReal (rangeUnion r (ofVersion p)) = None → ∃ u, rangeUnion r (ofVersion p) = ofUnion u.
Hypothesis Union_with_Range : ∀ r s,
  rangeMatchesAny r (ofRange s) || areAdjacent r s = true →
  is_Some (asReal (rangeUnion r (ofRange s))).

Lemma mergeStep_returns (nuc : unionConstraint) (c : realConstraint) :
  ∃ nuc', step nuc c = Ok nuc'.
Proof.
  unfold mergeStep.
  destruct (splitLast nuc) as [[front [lt|lt]]|]; destruct c as [ct|ct]; try by eexists.
  - case_match; by eexists.
  - destruct (asReal _) eqn:Hr; [by eexists |].
    apply Union_with_Point in Hr as [u ->]. by eexists.
  - destruct (_ || _) eqn:Hm; [| by eexists].
    apply Union_with_Range in Hm as [m ->]. by eexists.
Qed.

Lemma mergeLoop_returns (real : constraintList) (nuc : unionConstraint) :
  ∃ out, loop nuc real = Ok out.
Proof.
  revert nuc. induction real as [|c real IH]; intros nuc; simpl; [by eexists |].
  destruct (mergeStep_returns nuc c) as [nuc' ->]. apply IH.
Qed.

Lemma Union_returns (cs : list Constraint) : ∃ c, union (Val <$> cs) = Ok (Val c).
Proof.
  destruct cs as [|a [|b cs]]; [by exists none | by exists a |].
  rewrite Union_two_or_more. case_match; [by eexists |].
  destruct (mergeLoop_returns (sortList ((a :: b :: cs) ≫= members)) []) as [nuc ->].
  simpl. destruct nuc as [|m [|m' nuc]]; by eexists.
Qed.
End UnionReturns.

Section NoUnknownType.
Context {Version rangeConstraint : Type}.
#[local] Abbreviation Constraint := (Constraint Version rangeConstraint).
#[local] Abbreviation iface := (iface Version rangeConstraint).
#[local] Abbreviation constraintList := (constraintList Version rangeConstraint).

Variable sortList : constraintList → constraintList.
Variable Intersect : Constraint → Constraint → Constraint.
Variable versionEqual : Version → Version → bool.
Variable rangeUnion : rangeConstraint → Constraint → Constraint.
Variable rangeMatchesAny : rangeConstraint → Constraint → bool.
Variable areAdjacent : rangeConstraint → rangeConstraint → bool.

#[local] Abbreviation intersection := (Intersection sortList Intersect).
#[local] Abbreviation union :=
  (Union sortList versionEqual rangeUnion rangeMatchesAny areAdjacent).

(** A nil argument is what the unknown-type branch is there for. *)
Lemma unknown_type_of_nil (c : iface) :
  intersection [Nil; c] = Panic unknownConstraintType
  ∧ union [Nil; c] = Panic unknownConstraintType.
Proof. done. Qed.

(** C10.  On a sequence of values of the five variants, neither
    [Intersection] nor [Union] reaches its unknown-type panic:
    [Intersection] returns a value, [Union] does not panic that way, and
    [Union] returns a value as soon as the [Union] method of a Range
    answers with the variants that the type assertions of the merge loop
    expect. *)
Theorem variants_never_unknown_type
    (cg : list iface) (Hcg : Forall (λ c, c ≠ Nil) cg) :
  (∃ c, intersection cg = Ok (Val c))
  ∧ union cg ≠ Panic unknownConstraintType
  ∧ ((∀ r p, asReal (rangeUnion r (ofVersion p)) = None →
             ∃ u, rangeUnion r (ofVersion p) = ofUnion u) →
     (∀ r s, rangeMatchesAny r (ofRange s) || areAdjacent r s = true →
             is_Some (asReal (rangeUnion r (ofRange s)))) →
     ∃ c, union cg = Ok (Val c)).
Proof.
  apply variants_of_nonnil in Hcg as [cs ->]. split_and!.
  - apply Intersection_returns.
  - apply Union_no_unknown_type.
  - intros. by apply Union_returns.
Qed.
End NoUnknownType.

(** ** The versions that the results match *)

Lemma existsb_Permutation {A : Type} (f : A → bool) (l l' : list A) :
  l ≡ₚ l' → existsb f l = existsb f l'.
Proof.
  induction 1 as [|x l l' _ IH|x y l|l l' l'' _ IH1 _ IH2]; simpl.
  - done.
  - by rewrite IH.
  - by destruct (f x), (f y).
  - by rewrite IH1.
Qed.

Section Semantics.
Context {Version rangeConstraint : Type}.
#[local] Abbreviation Constraint := (Constraint Version rangeConstraint).
#[local] Abbreviation iface := (iface Version rangeConstraint).
#[local] Abbreviation realConstraint := (realConstraint Version rangeConstraint).
#[local] Abbreviation constraintList := (constraintList Version rangeConstraint).
#[local] Abbreviation unionConstraint := (unionConstraint Version rangeConstraint).

Variable versionEqual : Version → Version → bool.
Variable rangeMatches : rangeConstraint → Version → bool.

#[local] Abbreviation matchesC := (matches versionEqual rangeMatches).
#[local] Abbreviation matchesR := (matchesReal versionEqual rangeMatches).

Lemma matches_ofReal (m : realConstraint) (v : Version) :
  matchesC (ofReal m) v = matchesR m v.
Proof. by destruct m. Qed.

Lemma matches_asReal (c : Constraint) (m : realConstraint) (v : Version) :
  asReal c = Some m → matchesC c v = matchesR m v.
Proof. destruct c; intros [= <-]; done. Qed.

Lemma matches_members (c : Constraint) (v : Version) :
  c ≠ any → existsb (λ m, matchesR m v) (members c) = matchesC c v.
Proof. destruct c; simpl; intros; by rewrite ?orb_false_r. Qed.

Lemma matches_gathered (cs : list Constraint) (v : Version) :
  any ∉ cs →
  existsb (λ m, matchesR m v) (cs ≫= members) = existsb (λ c, matchesC c v) cs.
Proof.
  induction cs as [|c cs IH]; [done |].
  rewrite not_elem_of_cons. intros [Hc Hcs].
  rewrite bind_cons, existsb_app. simpl.
  by rewrite IH, matches_members.
Qed.

Lemma matches_wrapMembers (nuc : unionConstraint) (v : Version) :
  matchesIface versionEqual rangeMatches (wrapMembers nuc) v
  = existsb (λ m, matchesR m v) nuc.
Proof.
  destruct nuc as [|m [|m' nuc]]; [done | | done].
  simpl. by rewrite matches_ofReal, orb_false_r.
Qed.

Lemma matches_Universal_member (cs : list Constraint) (v : Version) :
  any ∈ cs → existsb (λ c, matchesC c v) cs = true.
Proof.
  intros Hin. apply existsb_exists. exists any. by rewrite <- list_elem_of_In.
Qed.

Lemma matches_Empty_member (cs : list Constraint) (v : Version) :
  none ∈ cs → forallb (λ c, matchesC c v) cs = false.
Proof.
  induction cs as [|c cs IH]; [by intros ?%elem_of_nil |].
  intros [<-|Hin]%elem_of_cons; simpl; [done |].
  by rewrite IH, andb_false_r.
Qed.
End Semantics.

(** *** [Intersection] matches what every input matches

    provided the [Intersect] methods do. *)

Section IntersectionSemantics.
Context {Version rangeConstraint : Type}.
#[local] Abbreviation Constraint := (Constraint Version rangeConstraint).
#[local] Abbreviation constraintList := (constraintList Version rangeConstraint).

Variable versionEqual : Version → Version → bool.
Variable rangeMatches : rangeConstraint → Version → bool.
Variable sortList : constraintList → constraintList.
Variable Intersect : Constraint → Constraint → Constraint.

#[local] Abbreviation matchesC := (matches versionEqual rangeMatches).

Hypothesis Intersect_matches : ∀ a b v,
  matchesC (Intersect a b) v = matchesC a v && matchesC b v.

Lemma pairwiseFold_matches (a : Constraint) (cs : list Constraint) (v : Version) :
  matchesC (pairwiseFold Intersect a cs) v
  = matchesC a v && forallb (λ c, matchesC c v) cs.
Proof.
  revert a. induction cs as [|c cs IH]; intros a; simpl.
  - by rewrite andb_true_r.
  - rewrite andb_assoc, <- Intersect_matches.
    destruct (Intersect a c) eqn:Hi; rewrite ?IH; done.
Qed.

Lemma Intersection_matches (cs : list Constraint) :
  cs ≠ [] →
  ∃ x, Intersection sortList Intersect (Val <$> cs) = Ok (Val x)
       ∧ ∀ v, matchesC x v = forallb (λ c, matchesC c v) cs.
Proof.
  intros Hne. destruct cs as [|a [|b cs]]; [done | |].
  - exists a. split; [done |]. intros v. simpl. by rewrite andb_true_r.
  - rewrite Intersection_two_or_more.
    destruct (existsb _ _) eqn:Hex; eexists; (split; [done |]); intros v.
    + apply Empty_member in Hex. by rewrite matches_Empty_member.
    + apply pairwiseFold_matches.
Qed.
End IntersectionSemantics.

(** *** [Union] matches what some input matches

    provided [sort.Sort] permutes its list, [Equal] versions are matched by
    the same Points, and the [Union] method of a Range matches what the
    range or its argument matches, for a Point and for a Range that overlaps
    the receiver or is adjacent to it. *)

Section UnionSemantics.
Context {Version rangeConstraint : Type}.
#[local] Abbreviation Constraint := (Constraint Version rangeConstraint).
#[local] Abbreviation realConstraint := (realConstraint Version rangeConstraint).
#[local] Abbreviation constraintList := (constraintList Version rangeConstraint).
#[local] Abbreviation unionConstraint := (unionConstraint Version rangeConstraint).

Variable versionEqual : Version → Version → bool.
Variable rangeMatches : rangeConstraint → Version → bool.
Variable sortList : constraintList → constraintList.
Variable rangeUnion : rangeConstraint → Constraint → Constraint.
Variable rangeMatchesAny : rangeConstraint → Constraint → bool.
Variable areAdjacent : rangeConstraint → rangeConstraint → bool.

#[local] Abbreviation matchesC := (matches versionEqual rangeMatches).
#[local] Abbreviation matchesR := (matchesReal versionEqual rangeMatches).
#[local] Abbreviation step :=
  (mergeStep versionEqual rangeUnion rangeMatchesAny areAdjacent).
#[local] Abbreviation loop :=
  (mergeLoop versionEqual rangeUnion rangeMatchesAny areAdjacent).
#[local] Abbreviation union :=
  (Union sortList versionEqual rangeUnion rangeMatchesAny areAdjacent).

Hypothesis sortList_permutes : ∀ l, sortList l ≡ₚ l.
Hypothesis Equal_matches : ∀ p q v,
  versionEqual p q = true → versionEqual p v = versionEqual q v.
Hypothesis Union_Point_matches : ∀ r p v,
  matchesC (rangeUnion r (ofVersion p)) v = rangeMatches r v || versionEqual p v.
Hypothesis Union_Range_matches : ∀ r s v,
  rangeMatchesAny r (ofRange s) || areAdjacent r s = true →
  matchesC (rangeUnion r (ofRange s)) v = rangeMatches r v || rangeMatches s v.

Lemma mergeStep_matches (nuc nuc' : unionConstraint) (c : realConstraint) (v : Version) :
  step nuc c = Ok nuc' →
  existsb (λ m, matchesR m v) nuc' = existsb (λ m, matchesR m v) nuc || matchesR c v.
Proof.
  destruct nuc as [|x nuc _] using rev_ind.
  { intros [= <-]. simpl. by rewrite orb_false_r. }
  destruct x as [lt|lt], c as [ct|ct].
  - rewrite mergeStep_Version_Version.
    destruct (versionEqual lt ct) eqn:Heq; intros [= <-].
    + rewrite existsb_app. simpl.
      rewrite (Equal_matches _ _ v Heq). by destruct (existsb _ nuc), (versionEqual ct v).
    + rewrite !existsb_app. simpl. by rewrite !orb_false_r, orb_assoc.
  - rewrite mergeStep_Version_Range. intros [= <-].
    rewrite !existsb_app. simpl. by rewrite !orb_false_r, orb_assoc.
  - rewrite mergeStep_Range_Version.
    pose proof (Union_Point_matches lt ct v) as Hu.
    destruct (rangeUnion lt (ofVersion ct)); intros [= <-];
      rewrite !existsb_app; simpl in *; by rewrite ?orb_false_r, <- ?orb_assoc, Hu.
  - rewrite mergeStep_Range_Range.
    destruct (_ || _) eqn:Hm.
    + pose proof (Union_Range_matches lt ct v Hm) as Hu.
      destruct (rangeUnion lt (ofRange ct)); intros [= <-];
        rewrite !existsb_app; simpl in *; by rewrite ?orb_false_r, <- ?orb_assoc, Hu.
    + intros [= <-]. rewrite !existsb_app. simpl. by rewrite !orb_false_r, orb_assoc.
Qed.

Lemma mergeLoop_matches (real : constraintList) (nuc out : unionConstraint) (v : Version) :
  loop nuc real = Ok out →
  existsb (λ m, matchesR m v) out
  = existsb (λ m, matchesR m v) nuc || existsb (λ m, matchesR m v) real.
Proof.
  revert nuc. induction real as [|c real IH]; intros nuc; simpl.
  - intros [= <-]. by rewrite orb_false_r.
  - destruct (step nuc c) as [nuc'|] eqn:Hs; simpl; [| done].
    intros Hl. rewrite (IH _ Hl), (mergeStep_matches _ _ _ _ Hs). by rewrite orb_assoc.
Qed.

Lemma Union_matches (cs : list Constraint) (x : Constraint) :
  union (Val <$> cs) = Ok (Val x) →
  ∀ v, matchesC x v = existsb (λ c, matchesC c v) cs.
Proof.
  destruct cs as [|a [|b cs]].
  - by intros [= <-].
  - intros [= <-] v. simpl. by rewrite orb_false_r.
  - rewrite Union_two_or_more.
    destruct (existsb _ _) eqn:Hex.
    + intros [= <-] v. apply Universal_member in Hex.
      by rewrite matches_Universal_member.
    + destruct (loop _ _) as [nuc|] eqn:Hl; [| done].
      intros Hw v. simpl in Hw.
      assert (any ∉ a :: b :: cs) as Hnin.
      { rewrite <- Universal_member. by rewrite Hex. }
      rewrite <- (matches_gathered _ _ _ _ Hnin).
      rewrite <- (existsb_Permutation _ _ _ (sortList_permutes _)).
      rewrite <- (orb_false_l (existsb _ (sortList _))).
      change false with (existsb (λ m, matchesR m v) []).
      rewrite <- (mergeLoop_matches _ _ _ _ Hl).
      rewrite <- matches_wrapMembers.
      injection Hw as ->. done.
Qed.
End UnionSemantics.

Section Algebra.
Context {Version rangeConstraint : Type}.
#[local] Abbreviation Constraint := (Constraint Version rangeConstraint).
#[local] Abbreviation constraintList := (constraintList Version rangeConstraint).

Variable versionEqual : Version → Version → bool.
Variable rangeMatches : rangeConstraint → Version → bool.
Variable sortList : constraintList → constraintList.
Variable Intersect : Constraint → Constraint → Constraint.
Variable rangeUnion : rangeConstraint → Constraint → Constraint.
Variable rangeMatchesAny : rangeConstraint → Constraint → bool.
Variable areAdjacent : rangeConstraint → rangeConstraint → bool.

#[local] Abbreviation matchesC := (matches versionEqual rangeMatches).
#[local] Abbreviation intersection := (Intersection sortList Intersect).
#[local] Abbreviation union :=
  (Union sortList versionEqual rangeUnion rangeMatchesAny areAdjacent).
#[local] Abbreviation same := (sameVersions versionEqual rangeMatches).

Lemma Union_returns_matching
    (sortList_permutes : ∀ l, sortList l ≡ₚ l)
    (Equal_matches : ∀ p q v,
       versionEqual p q = true → versionEqual p v = versionEqual q v)
    (Union_Point_matches : ∀ r p v,
       matchesC (rangeUnion r (ofVersion p)) v = rangeMatches r v || versionEqual p v)
    (Union_Range_matches : ∀ r s v,
       rangeMatchesAny r (ofRange s) || areAdjacent r s = true →
       matchesC (rangeUnion r (ofRange s)) v = rangeMatches r v || rangeMatches s v)
    (Union_with_Point : ∀ r p,
       asReal (rangeUnion r (ofVersion p)) = None →
       ∃ u, rangeUnion r (ofVersion p) = ofUnion u)
    (Union_with_Range : ∀ r s,
       rangeMatchesAny r (ofRange s) || areAdjacent r s = true →
       is_Some (asReal (rangeUnion r (ofRange s))))
    (cs : list Constraint) :
  ∃ x, union (Val <$> cs) = Ok (Val x)
       ∧ ∀ v, matchesC x v = existsb (λ c, matchesC c v) cs.
Proof.
  destruct (Union_returns sortList versionEqual rangeUnion rangeMatchesAny areAdjacent
              Union_with_Point Union_with_Range cs) as [x Hx].
  exists x. split; [done |]. by eapply Union_matches.
Qed.

(** C7.  [Intersection] and [Union] of two constraints match the same
    versions in either order of the two, and both are associative: nesting
    to the left, nesting to the right and passing the three constraints at
    once match the same versions.  The methods of
    the variants are taken to match what the specification says of them:
    [Intersect] what both constraints match, the [Union] of a Range with a
    Point or with an overlapping or adjacent Range what either matches. *)
Theorem Intersection_Union_commutative_associative
    (sortList_permutes : ∀ l, sortList l ≡ₚ l)
    (Equal_matches : ∀ p q v,
       versionEqual p q = true → versionEqual p v = versionEqual q v)
    (Intersect_matches : ∀ a b v,
       matchesC (Intersect a b) v = matchesC a v && matchesC b v)
    (Union_Point_matches : ∀ r p v,
       matchesC (rangeUnion r (ofVersion p)) v = rangeMatches r v || versionEqual p v)
    (Union_Range_matches : ∀ r s v,
       rangeMatchesAny r (ofRange s) || areAdjacent r s = true →
       matchesC (rangeUnion r (ofRange s)) v = rangeMatches r v || rangeMatches s v)
    (Union_with_Point : ∀ r p,
       asReal (rangeUnion r (ofVersion p)) = None →
       ∃ u, rangeUnion r (ofVersion p) = ofUnion u)
    (Union_with_Range : ∀ r s,
       rangeMatchesAny r (ofRange s) || areAdjacent r s = true →
       is_Some (asReal (rangeUnion r (ofRange s))))
    (a b c : Constraint) :
  same (intersection [Val a; Val b]) (intersection [Val b; Val a])
  ∧ same (union [Val a; Val b]) (union [Val b; Val a])
  ∧ same (ab ← intersection [Val a; Val b]; intersection [ab; Val c])
         (bc ← intersection [Val b; Val c]; intersection [Val a; bc])
  ∧ same (ab ← union [Val a; Val b]; union [ab; Val c])
         (bc ← union [Val b; Val c]; union [Val a; bc])
  ∧ same (intersection [Val a; Val b; Val c])
         (ab ← intersection [Val a; Val b]; intersection [ab; Val c])
  ∧ same (union [Val a; Val b; Val c])
         (ab ← union [Val a; Val b]; union [ab; Val c]).
Proof.
  assert (∀ x y, ∃ z, intersection [Val x; Val y] = Ok (Val z)
                      ∧ ∀ v, matchesC z v = matchesC x v && matchesC y v) as HI.
  { intros x y.
    destruct (Intersection_matches versionEqual rangeMatches sortList Intersect
                Intersect_matches [x; y]) as (z & Hz & Hzv); [done |].
    exists z. split; [exact Hz |]. intros v. rewrite Hzv. simpl. by rewrite andb_true_r. }
  assert (∀ x y, ∃ z, union [Val x; Val y] = Ok (Val z)
                      ∧ ∀ v, matchesC z v = matchesC x v || matchesC y v) as HU.
  { intros x y.
    destruct (Union_returns_matching sortList_permutes Equal_matches Union_Point_matches
                Union_Range_matches Union_with_Point Union_with_Range [x; y])
      as (z & Hz & Hzv).
    exists z. split; [exact Hz |]. intros v. rewrite Hzv. simpl. by rewrite orb_false_r. }
  split_and!.
  - destruct (HI a b) as (x & -> & Hxv), (HI b a) as (y & -> & Hyv).
    exists x, y. split_and!; [done | done |]. intros v.
    rewrite Hxv, Hyv. apply andb_comm.
  - destruct (HU a b) as (x & -> & Hxv), (HU b a) as (y & -> & Hyv).
    exists x, y. split_and!; [done | done |]. intros v.
    rewrite Hxv, Hyv. apply orb_comm.
  - destruct (HI a b) as (ab & -> & Habv), (HI b c) as (bc & -> & Hbcv).
    destruct (HI ab c) as (x & Hx & Hxv), (HI a bc) as (y & Hy & Hyv).
    exists x, y. split_and!; [done | done |]. intros v.
    rewrite Hxv, Hyv, Habv, Hbcv. symmetry. apply andb_assoc.
  - destruct (HU a b) as (ab & -> & Habv), (HU b c) as (bc & -> & Hbcv).
    destruct (HU ab c) as (x & Hx & Hxv), (HU a bc) as (y & Hy & Hyv).
    exists x, y. split_and!; [done | done |]. intros v.
    rewrite Hxv, Hyv, Habv, Hbcv. symmetry. apply orb_assoc.
  - destruct (Intersection_matches versionEqual rangeMatches sortList Intersect
                Intersect_matches [a; b; c]) as (x & Hx & Hxv); [done |].
    destruct (HI a b) as (ab & -> & Habv). destruct (HI ab c) as (y & Hy & Hyv).
    exists x, y. split_and!; [exact Hx | done |]. intros v.
    rewrite Hxv, Hyv, Habv. simpl. by rewrite andb_true_r, andb_assoc.
  - destruct (Union_returns_matching sortList_permutes Equal_matches Union_Point_matches
                Union_Range_matches Union_with_Point Union_with_Range [a; b; c])
      as (x & Hx & Hxv).
    destruct (HU a b) as (ab & -> & Habv). destruct (HU ab c) as (y & Hy & Hyv).
    exists x, y. split_and!; [exact Hx | done |]. intros v.
    rewrite Hxv, Hyv, Habv. simpl. by rewrite orb_false_r, orb_assoc.
Qed.
End Algebra.

(** ** [NewConstraint] *)

Lemma initialCache_consistent {Version rangeConstraint error : Type}
    sortList Intersect versionEqual rangeUnion rangeMatchesAny areAdjacent rewriteRange
    (parseConstraint : string → error + Constraint Version rangeConstraint) :
  cacheConsistent sortList Intersect versionEqual rangeUnion rangeMatchesAny areAdjacent
    rewriteRange parseConstraint initialCache.
Proof. intros s final. simpl. by rewrite lookup_empty. Qed.

Section NewConstraintProperties.
Context {Version rangeConstraint error : Type}.
#[local] Abbreviation Constraint := (Constraint Version rangeConstraint).
#[local] Abbreviation iface := (iface Version rangeConstraint).
#[local] Abbreviation constraintList := (constraintList Version rangeConstraint).
#[local] Abbreviation cache := (cache Version rangeConstraint).

Variable sortList : constraintList → constraintList.
Variable Intersect : Constraint → Constraint → Constraint.
Variable versionEqual : Version → Version → bool.
Variable rangeUnion : rangeConstraint → Constraint → Constraint.
Variable rangeMatchesAny : rangeConstraint → Constraint → bool.
Variable areAdjacent : rangeConstraint → rangeConstraint → bool.
Variable rewriteRange : string → string.
Variable parseConstraint : string → error + Constraint.

#[local] Abbreviation union :=
  (Union sortList versionEqual rangeUnion rangeMatchesAny areAdjacent).
#[local] Abbreviation newConstraint :=
  (NewConstraint sortList Intersect versionEqual rangeUnion rangeMatchesAny areAdjacent
     rewriteRange parseConstraint).
#[local] Abbreviation procedure :=
  (parseExpression sortList Intersect versionEqual rangeUnion rangeMatchesAny areAdjacent
     rewriteRange parseConstraint).
#[local] Abbreviation consistent :=
  (cacheConsistent sortList Intersect versionEqual rangeUnion rangeMatchesAny areAdjacent
     rewriteRange parseConstraint).
#[local] Abbreviation reachableState :=
  (reachable sortList Intersect versionEqual rangeUnion rangeMatchesAny areAdjacent
     rewriteRange parseConstraint).

Lemma parseMembers_parseGroup (cs : list string) :
  parseMembers parseConstraint cs =
    match parseGroup parseConstraint cs with
    | inl err => inl err
    | inr members => inr (Val <$> members)
    end.
Proof.
  induction cs as [|s cs IH]; simpl; [done |].
  destruct (parseConstraint s); [done |].
  rewrite IH. by destruct (parseGroup parseConstraint cs).
Qed.

(** The outer loop parses and intersects group after group; as no
    intersection of parsed members panics, it comes to the same as parsing
    every group first. *)
Lemma parseGroups_parseAll (ors : list string) :
  parseGroups sortList Intersect parseConstraint ors =
    match parseAll parseConstraint ((λ g, Split g ",") <$> ors) with
    | inl err => Ok (inl err)
    | inr groups =>
        ands ← mapM (λ g, Intersection sortList Intersect (Val <$> g)) groups;
        Ok (inr ands)
    end.
Proof.
  induction ors as [|v ors IH]; csimpl; [done |].
  rewrite parseMembers_parseGroup.
  destruct (parseGroup parseConstraint (Split v ",")) as [err|members]; [done |].
  destruct (Intersection_returns sortList Intersect members) as [g Hg].
  rewrite Hg. simpl. rewrite IH.
  destruct (parseAll parseConstraint _) as [err|groups]; [done |].
  simpl. rewrite Hg. simpl.
  by destruct (mapM _ groups).
Qed.

(** What [NewConstraint] does when it does not answer from the cache. *)
Lemma NewConstraint_computes (st : cache) (input : string) :
  cacheLookup st input = None →
  newConstraint st input =
    match parseAll parseConstraint (splitExpression rewriteRange input) with
    | inl err => Ok (st, (Nil, Some err))
    | inr groups =>
        final ← combine sortList Intersect versionEqual rangeUnion rangeMatchesAny
                  areAdjacent groups;
        Ok (cacheStore st input final, (final, None))
    end.
Proof.
  intros Hmiss. unfold NewConstraint, splitExpression, combine.
  rewrite Hmiss, parseGroups_parseAll.
  destruct (parseAll parseConstraint _) as [err|groups]; [done |].
  simpl. by destruct (mapM _ groups).
Qed.

Lemma NewConstraint_cached (st : cache) (input : string) (final : iface) :
  cacheLookup st input = Some final →
  newConstraint st input = Ok (st, (final, None)).
Proof. intros Hhit. unfold NewConstraint. by rewrite Hhit. Qed.

Lemma cacheLookup_consistent (st : cache) (input : string) (final : iface) :
  consistent st → cacheLookup st input = Some final →
  procedure input = Ok (final, None).
Proof.
  unfold cacheLookup. intros Hc Hl. apply Hc.
  by destruct (cacheConstraints st).
Qed.

(** The returned pair is what the procedure of the specification gives. *)
Lemma NewConstraint_value (st : cache) (input : string) :
  consistent st → snd <$> newConstraint st input = procedure input.
Proof.
  intros Hc. destruct (cacheLookup st input) as [final|] eqn:Hl.
  - rewrite (NewConstraint_cached _ _ _ Hl).
    symmetry. by apply cacheLookup_consistent with st.
  - rewrite (NewConstraint_computes _ _ Hl). unfold parseExpression.
    destruct (parseAll parseConstraint _) as [err|groups]; [done |].
    by destruct (combine _ _ _ _ _ _ _).
Qed.

Lemma cacheStore_consistent (st : cache) (input : string) (final : iface) :
  consistent st → procedure input = Ok (final, None) →
  consistent (cacheStore st input final).
Proof.
  intros Hc Hp s final'. unfold cacheStore.
  destruct (cacheConstraints st); [| apply Hc]. simpl.
  rewrite lookup_insert. case_decide as Heq; [| apply Hc].
  intros [= <-]. by rewrite <- Heq.
Qed.

(** [NewConstraint] keeps the cache consistent. *)
Lemma NewConstraint_consistent (st st' : cache) (input : string) r :
  consistent st → newConstraint st input = Ok (st', r) → consistent st'.
Proof.
  intros Hc. destruct (cacheLookup st input) as [final|] eqn:Hl.
  - rewrite (NewConstraint_cached _ _ _ Hl). by intros [= <- _].
  - rewrite (NewConstraint_computes _ _ Hl).
    destruct (parseAll parseConstraint _) as [err|groups] eqn:Hp; [by intros [= <- _] |].
    destruct (combine _ _ _ _ _ _ _) as [final|] eqn:Hf; [| done].
    intros [= <- _]. apply cacheStore_consistent; [done |].
    unfold parseExpression. by rewrite Hp, Hf.
Qed.

(** [NewConstraint] never writes [cacheConstraints]. *)
Lemma NewConstraint_caching (st st' : cache) (input : string) r :
  newConstraint st input = Ok (st', r) → cacheConstraints st' = cacheConstraints st.
Proof.
  destruct (cacheLookup st input) as [final|] eqn:Hl.
  - rewrite (NewConstraint_cached _ _ _ Hl). by intros [= <- _].
  - rewrite (NewConstraint_computes _ _ Hl).
    destruct (parseAll parseConstraint _) as [err|groups]; [by intros [= <- _] |].
    destruct (combine _ _ _ _ _ _ _) as [final|]; [| done].
    intros [= <- _]. unfold cacheStore. by destruct (cacheConstraints st) eqn:Hon.
Qed.

(** In every reachable state caching is on and the cache is consistent. *)
Lemma reachable_invariant (st : cache) :
  reachableState st → cacheConstraints st = true ∧ consistent st.
Proof.
  induction 1 as [|st st' input r _ [Hon Hc] Hcall].
  - split; [done | apply initialCache_consistent].
  - split.
    + by rewrite (NewConstraint_caching _ _ _ _ Hcall).
    + by eapply NewConstraint_consistent.
Qed.

Lemma parseGroup_error (members : list string) (m : string) (err : error) :
  m ∈ members → parseConstraint m = inl err →
  ∃ err', parseGroup parseConstraint members = inl err'.
Proof.
  intros Hin Hm. induction members as [|x members IH]; [by apply elem_of_nil in Hin |].
  simpl. apply elem_of_cons in Hin as [<-|Hin].
  - rewrite Hm. by eexists.
  - destruct (IH Hin) as [err' ->]. destruct (parseConstraint x); by eexists.
Qed.

Lemma parseAll_error (groups : list (list string)) (m : string) (err : error) :
  m ∈ concat groups → parseConstraint m = inl err →
  ∃ err', parseAll parseConstraint groups = inl err'.
Proof.
  intros Hin Hm. induction groups as [|g groups IH]; [by apply elem_of_nil in Hin |].
  simpl in *. apply elem_of_app in Hin as [Hin|Hin].
  - destruct (parseGroup_error _ _ _ Hin Hm) as [err' ->]. by eexists.
  - destruct (IH Hin) as [err' ->]. destruct (parseGroup parseConstraint g); by eexists.
Qed.

(** C8.  [NewConstraint] gives what the procedure gives: the hyphen
    ranges rewritten, the result split on [||] into OR-groups and each of
    these on [,] into AND-members, every member parsed, each group folded
    with [Intersection] and the results with [Union].  This holds in every
    state that calls of [NewConstraint] lead to, where the cache holds only
    what earlier calls put there. *)
Theorem NewConstraint_follows_procedure
    (st : cache) (input : string) (Hst : reachableState st) :
  snd <$> newConstraint st input =
    match parseAll parseConstraint
            ((λ g, Split g ",") <$> Split (rewriteRange input) "||") with
    | inl err => Ok (Nil, Some err)
    | inr groups =>
        ands ← mapM (λ g, Intersection sortList Intersect (Val <$> g)) groups;
        final ← union ands;
        Ok (final, None)
    end.
Proof.
  apply reachable_invariant in Hst as [_ Hst].
  rewrite NewConstraint_value by done.
  unfold parseExpression, splitExpression, combine.
  destruct (parseAll parseConstraint _) as [err|groups]; [done |].
  simpl. by destruct (mapM _ groups).
Qed.

(** C9.  In every state that calls of [NewConstraint] lead to: when a
    member of the expression does not parse, [NewConstraint] returns an
    error with a nil constraint and leaves the cache as it was; when the
    expression parses, the result is in the cache under the input string
    afterwards, and a second call with that string returns it whatever the
    rewriter and the parser would now do. *)
Theorem NewConstraint_error_and_cache
    (st : cache) (input : string) (Hst : reachableState st) :
  (∀ m err, m ∈ concat (splitExpression rewriteRange input) →
            parseConstraint m = inl err →
            ∃ err', newConstraint st input = Ok (st, (Nil, Some err')))
  ∧ (∀ final, procedure input = Ok (final, None) →
              ∃ st', newConstraint st input = Ok (st', (final, None))
                     ∧ constraintCache st' !! input = Some final
                     ∧ ∀ rewriteRange' (parseConstraint' : string → error + Constraint),
                         NewConstraint sortList Intersect versionEqual rangeUnion
                           rangeMatchesAny areAdjacent rewriteRange' parseConstraint'
                           st' input
                         = Ok (st', (final, None))).
Proof.
  apply reachable_invariant in Hst as [Hon Hst]. split.
  - intros m err Hin Hm.
    destruct (parseAll_error _ _ _ Hin Hm) as [err' Herr].
    destruct (cacheLookup st input) as [final|] eqn:Hl.
    + apply (cacheLookup_consistent _ _ _ Hst) in Hl.
      unfold parseExpression in Hl. by rewrite Herr in Hl.
    + exists err'. by rewrite (NewConstraint_computes _ _ Hl), Herr.
  - intros final Hp.
    destruct (cacheLookup st input) as [final'|] eqn:Hl.
    + pose proof (cacheLookup_consistent _ _ _ Hst Hl) as Hp'.
      rewrite Hp in Hp'. injection Hp' as <-.
      exists st. split_and!.
      * by apply NewConstraint_cached.
      * unfold cacheLookup in Hl. by rewrite Hon in Hl.
      * intros. unfold NewConstraint. by rewrite Hl.
    + exists (cacheStore st input final).
      assert (cacheLookup (cacheStore st input final) input = Some final) as Hl'.
      { unfold cacheLookup, cacheStore. rewrite Hon. simpl.
        by rewrite lookup_insert_eq. }
      split_and!.
      * rewrite (NewConstraint_computes _ _ Hl).
        unfold parseExpression in Hp.
        destruct (parseAll parseConstraint _) as [err|groups]; [done |].
        destruct (combine _ _ _ _ _ _ _) as [final'|]; [| done].
        by injection Hp as ->.
      * unfold cacheStore. rewrite Hon. simpl. by rewrite lookup_insert_eq.
      * intros. unfold NewConstraint. by rewrite Hl'.
Qed.
End NewConstraintProperties.


(** * Further properties of [Intersection] and [Union] *)

(** ** Early returns and nil arguments *)

Section EarlyReturns.
Context {Version rangeConstraint : Type}.
#[local] Abbreviation Constraint := (Constraint Version rangeConstraint).
#[local] Abbreviation iface := (iface Version rangeConstraint).
#[local] Abbreviation constraintList := (constraintList Version rangeConstraint).

(** The first loops on a run of variant values followed by anything. *)
Lemma intersectionScan_app (cs : list Constraint) (rest : list iface) (real : constraintList) :
  none ∉ cs →
  intersectionScan ((Val <$> cs) ++ rest) real
  = intersectionScan rest (real ++ (cs ≫= members)).
Proof.
  revert real. induction cs as [|c cs IH]; intros real Hnin.
  - by rewrite app_nil_r.
  - apply not_elem_of_cons in Hnin as [Hc Hnin].
    rewrite fmap_cons, bind_cons, app_assoc. simpl.
    destruct c; try done; rewrite IH by done; by rewrite ?app_nil_r.
Qed.

Lemma unionScan_app (cs : list Constraint) (rest : list iface) (real : constraintList) :
  any ∉ cs →
  unionScan ((Val <$> cs) ++ rest) real = unionScan rest (real ++ (cs ≫= members)).
Proof.
  revert real. induction cs as [|c cs IH]; intros real Hnin.
  - by rewrite app_nil_r.
  - apply not_elem_of_cons in Hnin as [Hc Hnin].
    rewrite fmap_cons, bind_cons, app_assoc. simpl.
    destruct c; try done; rewrite IH by done; by rewrite ?app_nil_r.
Qed.

Lemma intersectionScan_Empty (cs : list Constraint) (rest : list iface) (real : constraintList) :
  intersectionScan ((Val <$> cs) ++ Val none :: rest) real = Ok (Returned (Val none)).
Proof.
  revert real. induction cs as [|c cs IH]; intros real; [done |].
  rewrite fmap_cons. simpl. by destruct c.
Qed.

Lemma unionScan_Universal (cs : list Constraint) (rest : list iface) (real : constraintList) :
  unionScan ((Val <$> cs) ++ Val any :: rest) real = Ok (Returned (Val any)).
Proof.
  revert real. induction cs as [|c cs IH]; intros real; [done |].
  rewrite fmap_cons. simpl. by destruct c.
Qed.

Lemma two_or_more {A : Type} (l : list A) :
  2 ≤ length l → ∃ a b l', l = a :: b :: l'.
Proof. destruct l as [|a [|b l']]; simpl; try lia. by eexists _, _, _. Qed.

Section WithCollaborators.
Variable sortList : constraintList → constraintList.
Variable Intersect : Constraint → Constraint → Constraint.
Variable versionEqual : Version → Version → bool.
Variable rangeUnion : rangeConstraint → Constraint → Constraint.
Variable rangeMatchesAny : rangeConstraint → Constraint → bool.
Variable areAdjacent : rangeConstraint → rangeConstraint → bool.

#[local] Abbreviation intersection := (Intersection sortList Intersect).
#[local] Abbreviation union :=
  (Union sortList versionEqual rangeUnion rangeMatchesAny areAdjacent).

(** X2.  The first loops stop at the first input that decides.  With two
    inputs or more: a nil input that no Empty input precedes makes
    [Intersection] panic, and an Empty input that only variant values
    precede makes it return Empty, whatever follows, be it nil; in the same
    way a nil input that no Universal input precedes makes [Union] panic,
    and a Universal input makes it return Universal. *)
Theorem first_loop_stops_at_first_decisive_input
    (cs : list Constraint) (rest : list iface)
    (Hlen : 1 ≤ length cs + length rest) :
  (none ∉ cs → intersection ((Val <$> cs) ++ Nil :: rest) = Panic unknownConstraintType)
  ∧ intersection ((Val <$> cs) ++ Val none :: rest) = Ok None'
  ∧ (any ∉ cs → union ((Val <$> cs) ++ Nil :: rest) = Panic unknownConstraintType)
  ∧ union ((Val <$> cs) ++ Val any :: rest) = Ok Any.
Proof.
  assert (∀ x : iface, 2 ≤ length ((Val <$> cs) ++ x :: rest)) as Hlen'.
  { intros x. rewrite length_app, length_fmap. simpl. lia. }
  split_and!.
  - intros Hnin. destruct (two_or_more _ (Hlen' Nil)) as (a & b & l' & Heq).
    unfold Intersection. rewrite Heq, <- Heq.
    by rewrite intersectionScan_app.
  - destruct (two_or_more _ (Hlen' (Val none))) as (a & b & l' & Heq).
    unfold Intersection. rewrite Heq, <- Heq.
    by rewrite intersectionScan_Empty.
  - intros Hnin. destruct (two_or_more _ (Hlen' Nil)) as (a & b & l' & Heq).
    unfold Union. rewrite Heq, <- Heq.
    by rewrite unionScan_app.
  - destruct (two_or_more _ (Hlen' (Val any))) as (a & b & l' & Heq).
    unfold Union. rewrite Heq, <- Heq.
    by rewrite unionScan_Universal.
Qed.
End WithCollaborators.
End EarlyReturns.

(** ** [Intersection] as a left fold *)

Section IntersectionFold.
Context {Version rangeConstraint : Type}.
#[local] Abbreviation Constraint := (Constraint Version rangeConstraint).
#[local] Abbreviation iface := (iface Version rangeConstraint).
#[local] Abbreviation constraintList := (constraintList Version rangeConstraint).

Variable sortList : constraintList → constraintList.
Variable Intersect : Constraint → Constraint → Constraint.

#[local] Abbreviation intersection := (Intersection sortList Intersect).

(** One formula for every non-empty sequence of variant values. *)
Lemma Intersection_nonempty (cs : list Constraint) :
  cs ≠ [] →
  intersection (Val <$> cs) =
    Ok (Val (if existsb (λ c, IsNone (Val c)) cs then none else foldOfInputs Intersect cs)).
Proof.
  intros Hne. destruct cs as [|a [|b cs]]; [done | |].
  - simpl. by destruct a.
  - rewrite Intersection_two_or_more. by case_match.
Qed.

Lemma pairwiseFold_app (a : Constraint) (l l' : list Constraint) :
  a ≠ none →
  pairwiseFold Intersect a (l ++ l') =
    match pairwiseFold Intersect a l with
    | none => none
    | x => pairwiseFold Intersect x l'
    end.
Proof.
  revert a. induction l as [|c l IH]; intros a Ha; simpl.
  - by destruct a.
  - destruct (Intersect a c) eqn:Hi; try done; by apply IH.
Qed.

(** X1.  [Intersection] is a left fold of itself: for a non-empty sequence
    of constraints, one more constraint at the end gives the
    [Intersection] of the earlier result and that constraint, and this
    whatever the [Intersect] methods do. *)
Theorem Intersection_of_one_more (cs : list Constraint) (c : Constraint) (Hcs : cs ≠ []) :
  intersection (Val <$> (cs ++ [c])) =
    x ← intersection (Val <$> cs); intersection [x; Val c].
Proof.
  rewrite (Intersection_nonempty (cs ++ [c])) by (by destruct cs).
  rewrite (Intersection_nonempty cs) by done.
  set (x := if existsb _ cs then none else foldOfInputs Intersect cs).
  trans (intersection (Val <$> [x; c])); [| done].
  rewrite Intersection_two_or_more.
  rewrite existsb_app. cbn [existsb]. rewrite !orb_false_r.
  subst x. destruct (existsb _ cs) eqn:Hex; [done |].
  destruct cs as [|a cs]; [done |].
  cbn [existsb] in Hex. apply orb_false_elim in Hex as [Ha Hex].
  assert (a ≠ none) as Ha' by (by intros ->).
  cbn [foldOfInputs app]. rewrite pairwiseFold_app by done.
  destruct (pairwiseFold Intersect a cs) eqn:Hf; simpl; try done;
    destruct c; simpl; try done; by case_match.
Qed.

(** *** Universal inputs *)

Hypothesis Intersect_Universal_left : ∀ c, Intersect any c = c.
Hypothesis Intersect_Universal_right : ∀ c, Intersect c any = c.

#[local] Abbreviation notUniversal :=
  (filter (λ c : Constraint, IsAny (Val c) = false)).

Lemma pairwiseFold_without_Universal (a : Constraint) (l : list Constraint) :
  a ≠ none →
  pairwiseFold Intersect a l = pairwiseFold Intersect a (notUniversal l).
Proof.
  revert a. induction l as [|c l IH]; intros a Ha; [done |].
  destruct (IsAny (Val c)) eqn:Hc.
  - rewrite filter_cons_False by (by rewrite Hc). destruct c; try done.
    cbn [pairwiseFold]. rewrite Intersect_Universal_right.
    destruct a; try done; by apply IH.
  - rewrite filter_cons_True by done. cbn [pairwiseFold].
    destruct (Intersect a c) eqn:Hi; try done; by apply IH.
Qed.

Lemma foldOfInputs_without_Universal (cs : list Constraint) :
  existsb (λ c, IsNone (Val c)) cs = false → notUniversal cs ≠ [] →
  foldOfInputs Intersect cs = foldOfInputs Intersect (notUniversal cs).
Proof.
  induction cs as [|a cs IH]; [done |]. cbn [existsb].
  intros [Ha Hex]%orb_false_elim Hne.
  destruct (IsAny (Val a)) eqn:Hc.
  - rewrite filter_cons_False in * by (by rewrite Hc). destruct a; try done.
    rewrite <- (IH Hex Hne).
    destruct cs as [|b cs]; [done |]. cbn [foldOfInputs pairwiseFold existsb] in *.
    rewrite Intersect_Universal_left.
    apply orb_false_elim in Hex as [Hb _]. by destruct b.
  - rewrite filter_cons_True by done. cbn [foldOfInputs].
    apply pairwiseFold_without_Universal. by intros ->.
Qed.

Lemma Empty_without_Universal (cs : list Constraint) :
  existsb (λ c, IsNone (Val c)) (notUniversal cs) = existsb (λ c, IsNone (Val c)) cs.
Proof.
  induction cs as [|a cs IH]; [done |].
  destruct (IsAny (Val a)) eqn:Hc.
  - rewrite filter_cons_False by (by rewrite Hc). destruct a; try done.
  - rewrite filter_cons_True by done. cbn [existsb]. by rewrite IH.
Qed.

(** X13.  Universal inputs can be left out: when the [Intersect] methods
    have Universal as identity on both sides, [Intersection] of a sequence
    is the [Intersection] of its inputs that are not Universal, provided
    there is one. *)
Theorem Intersection_drops_Universal (cs : list Constraint)
    (Hne : notUniversal cs ≠ []) :
  intersection (Val <$> cs) = intersection (Val <$> notUniversal cs).
Proof.
  rewrite !Intersection_nonempty; [| done | by intros ->].
  rewrite Empty_without_Universal.
  destruct (existsb _ cs) eqn:Hex; [done |].
  by rewrite foldOfInputs_without_Universal.
Qed.
End IntersectionFold.

(** ** What [Union] returns *)

Section UnionShape.
Context {Version rangeConstraint : Type}.
#[local] Abbreviation Constraint := (Constraint Version rangeConstraint).
#[local] Abbreviation iface := (iface Version rangeConstraint).
#[local] Abbreviation realConstraint := (realConstraint Version rangeConstraint).
#[local] Abbreviation constraintList := (constraintList Version rangeConstraint).
#[local] Abbreviation unionConstraint := (unionConstraint Version rangeConstraint).

Lemma unionScan_Returned (cg : list iface) (real : constraintList) (c : iface) :
  unionScan cg real = Ok (Returned c) → c = Val any.
Proof.
  revert real. induction cg as [|x cg IH]; intros real; [done |].
  destruct x as [|[| |v|r|u]]; simpl; try done; try apply IH.
  by intros [= <-].
Qed.

Lemma wrapMembers_shape (nuc : unionConstraint) :
  ∃ c, wrapMembers nuc = Val c ∧ c ≠ any ∧ c ≠ none.
Proof. destruct nuc as [|[v|r] [|m' nuc]]; by eexists. Qed.

Variable sortList : constraintList → constraintList.
Variable versionEqual : Version → Version → bool.
Variable rangeUnion : rangeConstraint → Constraint → Constraint.
Variable rangeMatchesAny : rangeConstraint → Constraint → bool.
Variable areAdjacent : rangeConstraint → rangeConstraint → bool.

#[local] Abbreviation loop :=
  (mergeLoop versionEqual rangeUnion rangeMatchesAny areAdjacent).
#[local] Abbreviation union :=
  (Union sortList versionEqual rangeUnion rangeMatchesAny areAdjacent).

(** X3.  [Union] returns Universal exactly when one of its inputs is
    Universal: the merge loop never makes Universal of Points and Ranges,
    however much they cover. *)
Theorem Union_Universal_only_from_input (cs : list Constraint) :
  union (Val <$> cs) = Ok Any ↔ any ∈ cs.
Proof.
  destruct cs as [|a [|b cs]].
  - split; [done | by intros ?%elem_of_nil].
  - rewrite list_elem_of_singleton. split; [by intros [= ->] | by intros <-].
  - rewrite Union_two_or_more, <- Universal_member.
    destruct (existsb _ _); [done |]. split; [| done].
    destruct (loop _ _) as [nuc|]; [| done]. simpl.
    destruct (wrapMembers_shape nuc) as (c & -> & Hc & _). by intros [= ->].
Qed.

(** X4.  Of two inputs or more, [Union] never returns Empty, nor nil:
    [IsNone] of its result is false, whatever the inputs and the methods
    of the variants. *)
Theorem Union_of_several_never_Empty (cg : list iface) (c : iface)
    (Hlen : 2 ≤ length cg) (Hret : union cg = Ok c) :
  IsNone c = false ∧ c ≠ Nil.
Proof.
  destruct cg as [|a [|b cg]]; simpl in Hlen; [lia | lia |].
  unfold Union in Hret.
  destruct (unionScan _ _) as [[x|real]|] eqn:Hs; simpl in Hret; [| | done].
  - injection Hret as <-. by apply unionScan_Returned in Hs as ->.
  - destruct (loop _ _) as [nuc|]; [| done]. simpl in Hret. injection Hret as <-.
    destruct (wrapMembers_shape nuc) as (c & -> & _ & Hc). split; [by destruct c | done].
Qed.

(** X5.  Of two inputs or more, none of them Universal, the result of
    [Union] depends on the inputs only through the sorted list of their
    members: Empty inputs are dropped, UnionSet inputs are flattened, and
    the order of the inputs counts as far as [sort.Sort] lets it. *)
Theorem Union_depends_on_sorted_members (cs cs' : list Constraint)
    (Hlen : 2 ≤ length cs) (Hlen' : 2 ≤ length cs')
    (Hany : any ∉ cs) (Hany' : any ∉ cs')
    (Hmembers : sortList (cs ≫= members) = sortList (cs' ≫= members)) :
  union (Val <$> cs) = union (Val <$> cs').
Proof.
  destruct cs as [|a [|b cs]]; simpl in Hlen; [lia | lia |].
  destruct cs' as [|a' [|b' cs']]; simpl in Hlen'; [lia | lia |].
  rewrite !Union_two_or_more.
  rewrite <- Universal_member in Hany, Hany'.
  apply not_true_is_false in Hany, Hany'.
  by rewrite Hany, Hany', Hmembers.
Qed.

(** X14.  When two or more inputs, none of them Universal, hold a single
    member between them, [Union] returns that member bare: a Point or a
    Range among Empty inputs comes back as it is, and a UnionSet of one
    member comes back unwrapped. *)
Theorem Union_of_one_member (cs : list Constraint) (m : realConstraint)
    (Hsort : sortList [m] = [m])
    (Hlen : 2 ≤ length cs) (Hany : any ∉ cs)
    (Hmembers : cs ≫= members = [m]) :
  union (Val <$> cs) = Ok (Val (ofReal m)).
Proof.
  destruct cs as [|a [|b cs]]; simpl in Hlen; [lia | lia |].
  rewrite Union_two_or_more.
  rewrite <- Universal_member in Hany. apply not_true_is_false in Hany.
  by rewrite Hany, Hmembers, Hsort.
Qed.

Lemma mergeLoop_same_Point (p : Version) (n : nat) :
  versionEqual p p = true →
  loop [realVersion p] (replicate n (realVersion p)) = Ok [realVersion p].
Proof.
  intros Hp. induction n as [|n IH]; [done |].
  simpl. unfold mergeStep. simpl. by rewrite Hp.
Qed.

Lemma Permutation_replicate {A : Type} (x : A) (n : nat) (l : list A) :
  l ≡ₚ replicate n x → l = replicate n x.
Proof.
  intros Hp.
  assert (length l = n) as <- by (by rewrite Hp, length_replicate).
  symmetry. apply replicate_as_Forall. split; [done |].
  rewrite Hp. by apply Forall_replicate.
Qed.

(** X6.  Duplicate Points collapse: [Union] of the same Point given two
    times or more is that Point, when [Equal] holds of a version and
    itself and [sort.Sort] permutes its list. *)
Theorem Union_of_one_Point_repeated (p : Version) (n : nat)
    (Hsort : ∀ l, sortList l ≡ₚ l)
    (Hequal : versionEqual p p = true) :
  union (Val <$> replicate (S (S n)) (ofVersion p)) = Ok (Val (ofVersion p)).
Proof.
  cbn [replicate]. rewrite Union_two_or_more.
  set (q := ofVersion p : Constraint).
  assert (existsb (λ c : Constraint, IsAny (Val c)) (q :: q :: replicate n q) = false) as ->.
  { apply not_true_is_false. rewrite Universal_member.
    intros Hin. change (q :: q :: replicate n q) with (replicate (S (S n)) q) in Hin.
    apply elem_of_replicate in Hin. by destruct Hin. }
  assert ((q :: q :: replicate n q) ≫= members = replicate (S (S n)) (realVersion p)) as ->.
  { simpl. do 2 f_equal. induction n as [|n IH]; [done |]. simpl. by rewrite IH. }
  rewrite (Permutation_replicate _ _ _ (Hsort _)).
  trans (nuc ← loop [realVersion p] (replicate (S n) (realVersion p)); Ok (wrapMembers nuc));
    [done |].
  by rewrite mergeLoop_same_Point.
Qed.

Lemma mergeLoop_Points (front : unionConstraint) (last : Version) (ps : list Version) :
  loop (front ++ [realVersion last]) (realVersion <$> ps)
  = Ok (front ++ realVersion last :: (realVersion <$> keptPoints versionEqual last ps)).
Proof.
  revert front last. induction ps as [|p ps IH]; intros front last; [done |].
  rewrite fmap_cons. cbn [mergeLoop keptPoints]. rewrite mergeStep_Version_Version.
  destruct (versionEqual last p); cbn [mbind result_bind].
  - apply IH.
  - change (front ++ [realVersion last; realVersion p])
      with (front ++ [realVersion last] ++ [realVersion p]).
    rewrite app_assoc, IH, <- app_assoc. done.
Qed.

(** X16.  Of Points alone, two or more, [Union] returns the sorted Points
    less those [Equal] to the last one kept, bare when a single one is
    left: the methods of the Ranges are not called. *)
Theorem Union_of_Points (ps qs : list Version)
    (Hlen : 2 ≤ length ps)
    (Hsort : sortList (realVersion <$> ps) = realVersion <$> qs) :
  union (Val <$> (ofVersion <$> ps))
  = Ok (wrapMembers (realVersion <$> distinctPoints versionEqual qs)).
Proof.
  destruct ps as [|a [|b ps]]; simpl in Hlen; [lia | lia |].
  set (l := ofVersion <$> ps : list Constraint).
  trans (union (Val <$> ofVersion a :: ofVersion b :: l)); [done |].
  subst l. rewrite Union_two_or_more.
  assert (existsb (λ c : Constraint, IsAny (Val c))
            (ofVersion a :: ofVersion b :: (ofVersion <$> ps)) = false) as ->.
  { clear. cbn [existsb IsAny orb]. induction ps as [|p ps IH]; [done |].
    rewrite fmap_cons. cbn [existsb IsAny orb]. exact IH. }
  assert ((ofVersion a :: ofVersion b :: (ofVersion <$> ps)) ≫= members
          = realVersion <$> a :: b :: ps) as ->.
  { clear. rewrite !fmap_cons, !bind_cons. simpl. do 2 f_equal.
    induction ps as [|p ps IH]; [done |]. rewrite !fmap_cons, bind_cons, IH. done. }
  rewrite Hsort. destruct qs as [|q qs]; [done |].
  trans (nuc ← loop ([] ++ [realVersion q]) (realVersion <$> qs); Ok (wrapMembers nuc));
    [done |].
  by rewrite mergeLoop_Points.
Qed.

(** X7.  The type assertion of line 282 is not checked: when two Ranges
    sort in the order given and overlap or are adjacent, and the [Union]
    method of the first answers with anything but a Point or a Range,
    [Union] panics. *)
Theorem Union_unchecked_assertion (a b : rangeConstraint)
    (Hsort : sortList [realRange a; realRange b] = [realRange a; realRange b])
    (Hmerge : rangeMatchesAny a (ofRange b) || areAdjacent a b = true)
    (Hanswer : asReal (rangeUnion a (ofRange b)) = None) :
  union [Val (ofRange a); Val (ofRange b)] = Panic interfaceConversion.
Proof.
  unfold Union. simpl. rewrite Hsort. simpl.
  unfold mergeStep. simpl. by rewrite Hmerge, Hanswer.
Qed.
End UnionShape.

(** ** The members of a [unionConstraint] that [Union] returns *)

Section UnionMembers.
Context {Version rangeConstraint : Type}.
#[local] Abbreviation Constraint := (Constraint Version rangeConstraint).
#[local] Abbreviation iface := (iface Version rangeConstraint).
#[local] Abbreviation realConstraint := (realConstraint Version rangeConstraint).
#[local] Abbreviation constraintList := (constraintList Version rangeConstraint).
#[local] Abbreviation unionConstraint := (unionConstraint Version rangeConstraint).

Variable sortList : constraintList → constraintList.
Variable versionEqual : Version → Version → bool.
Variable rangeUnion : rangeConstraint → Constraint → Constraint.
Variable rangeMatchesAny : rangeConstraint → Constraint → bool.
Variable areAdjacent : rangeConstraint → rangeConstraint → bool.

#[local] Abbreviation step :=
  (mergeStep versionEqual rangeUnion rangeMatchesAny areAdjacent).
#[local] Abbreviation loop :=
  (mergeLoop versionEqual rangeUnion rangeMatchesAny areAdjacent).
#[local] Abbreviation union :=
  (Union sortList versionEqual rangeUnion rangeMatchesAny areAdjacent).

Hypothesis sortList_keeps_members : ∀ l, sortList l = [] → l = [].
Hypothesis Union_with_Point_has_members : ∀ r p, rangeUnion r (ofVersion p) ≠ ofUnion [].

Lemma mergeStep_has_members (nuc nuc' : unionConstraint) (c : realConstraint) :
  step nuc c = Ok nuc' → nuc' ≠ [].
Proof.
  destruct nuc as [|x nuc _] using rev_ind.
  { intros [= <-]. done. }
  destruct x as [lt|lt], c as [ct|ct].
  - rewrite mergeStep_Version_Version. case_match; intros [= <-]; by destruct nuc.
  - rewrite mergeStep_Version_Range. intros [= <-]. by destruct nuc.
  - rewrite mergeStep_Range_Version.
    pose proof (Union_with_Point_has_members lt ct) as Hu.
    destruct (rangeUnion lt (ofVersion ct)) as [| | | |u]; intros [= <-];
      try by destruct nuc.
    destruct u; [done | by destruct nuc].
  - rewrite mergeStep_Range_Range.
    case_match; [| intros [= <-]; by destruct nuc].
    destruct (rangeUnion lt (ofRange ct)); intros [= <-]; by destruct nuc.
Qed.

Lemma mergeLoop_has_members (real : constraintList) (nuc out : unionConstraint) :
  nuc ≠ [] ∨ real ≠ [] → loop nuc real = Ok out → out ≠ [].
Proof.
  revert nuc. induction real as [|c real IH]; intros nuc Hne; simpl.
  - intros [= <-]. by destruct Hne.
  - destruct (step nuc c) as [nuc'|] eqn:Hs; [| done]. simpl.
    apply IH. left. by eapply mergeStep_has_members.
Qed.

(** X15.  A [unionConstraint] that [Union] returns of two inputs or more
    has two members or more as soon as the inputs hold a member, when
    [sort.Sort] loses no member and the [Union] method of a Range never
    answers a Point with a UnionSet without members. *)
Theorem Union_UnionSet_has_two_members (cs : list Constraint) (u : unionConstraint)
    (Hlen : 2 ≤ length cs)
    (Hmembers : cs ≫= members ≠ [])
    (Hret : union (Val <$> cs) = Ok (Val (ofUnion u))) :
  2 ≤ length u.
Proof.
  destruct cs as [|a [|b cs]]; simpl in Hlen; [lia | lia |].
  rewrite Union_two_or_more in Hret.
  destruct (existsb _ _); [done |].
  destruct (loop _ _) as [nuc|] eqn:Hl; [| done]. simpl in Hret.
  apply mergeLoop_has_members in Hl; [| right; intros H%sortList_keeps_members; done].
  destruct nuc as [|m [|m' nuc]]; [done | by destruct m |].
  injection Hret as <-. simpl. lia.
Qed.
End UnionMembers.

(** ** [strings.Split] on a string without the separator *)

Lemma append_char (cur rest : string) (ch : Ascii.ascii) :
  (cur +:+ String ch EmptyString) +:+ rest = cur +:+ String ch rest.
Proof.
  induction cur as [|c cur IH]; [done |].
  change (String c ((cur +:+ String ch EmptyString) +:+ rest)
          = String c (cur +:+ String ch rest)).
  by f_equal.
Qed.

Lemma append_empty (s : string) : s +:+ EmptyString = s.
Proof.
  induction s as [|c s IH]; [done |].
  change (String c (s +:+ EmptyString) = String c s). by f_equal.
Qed.

Lemma splitFrom_without_separator (c : Ascii.ascii) (sep s cur : string) :
  occursIn c s = false →
  splitFrom (String c sep) s 0 cur = [cur +:+ s].
Proof.
  revert cur. induction s as [|ch s IH]; intros cur Hs; simpl in *.
  - by rewrite append_empty.
  - destruct (Ascii.eqb c ch) eqn:Hc; [done |].
    destruct (Ascii.ascii_dec c ch) as [->|Hne].
    { by rewrite Ascii.eqb_refl in Hc. }
    rewrite IH by done. by rewrite append_char.
Qed.

Lemma Split_without_separator (c : Ascii.ascii) (sep s : string) :
  occursIn c s = false → Split s (String c sep) = [s].
Proof. intros Hs. unfold Split. by rewrite splitFrom_without_separator. Qed.

Lemma noneOf_occursIn (chars s : string) (c : Ascii.ascii) :
  noneOf chars s = true → occursIn c chars = true → occursIn c s = false.
Proof.
  intros Hs Hc. induction s as [|ch s IH]; simpl in *; [done |].
  apply andb_true_iff in Hs as [Hch Hs].
  destruct (Ascii.eqb c ch) eqn:Heq; [| by apply IH].
  apply Ascii.eqb_eq in Heq as <-. by rewrite Hc in Hch.
Qed.

(** ** More on [NewConstraint] *)

Section NewConstraintMore.
Context {Version rangeConstraint error : Type}.
#[local] Abbreviation Constraint := (Constraint Version rangeConstraint).
#[local] Abbreviation iface := (iface Version rangeConstraint).
#[local] Abbreviation constraintList := (constraintList Version rangeConstraint).
#[local] Abbreviation cache := (cache Version rangeConstraint).

Variable sortList : constraintList → constraintList.
Variable Intersect : Constraint → Constraint → Constraint.
Variable versionEqual : Version → Version → bool.
Variable rangeUnion : rangeConstraint → Constraint → Constraint.
Variable rangeMatchesAny : rangeConstraint → Constraint → bool.
Variable areAdjacent : rangeConstraint → rangeConstraint → bool.
Variable rewriteRange : string → string.
Variable parseConstraint : string → error + Constraint.

#[local] Abbreviation union :=
  (Union sortList versionEqual rangeUnion rangeMatchesAny areAdjacent).
#[local] Abbreviation newConstraint :=
  (NewConstraint sortList Intersect versionEqual rangeUnion rangeMatchesAny areAdjacent
     rewriteRange parseConstraint).
#[local] Abbreviation procedure :=
  (parseExpression sortList Intersect versionEqual rangeUnion rangeMatchesAny areAdjacent
     rewriteRange parseConstraint).
#[local] Abbreviation reachableState :=
  (reachable sortList Intersect versionEqual rangeUnion rangeMatchesAny areAdjacent
     rewriteRange parseConstraint).

(** The three ways a call can end. *)
Lemma NewConstraint_cases (st st' : cache) (input : string) r :
  newConstraint st input = Ok (st', r) →
  (st' = st ∧ ∃ final, cacheLookup st input = Some final ∧ r = (final, None))
  ∨ (st' = st ∧ cacheLookup st input = None ∧ ∃ err, r = (Nil, Some err))
  ∨ (st' = cacheStore st input r.1 ∧ cacheLookup st input = None ∧ r.2 = None).
Proof.
  destruct (cacheLookup st input) as [final|] eqn:Hl.
  - rewrite (NewConstraint_cached _ _ _ _ _ _ _ _ _ _ _ Hl).
    intros [= <- <-]. left. eauto.
  - rewrite (NewConstraint_computes _ _ _ _ _ _ _ _ _ _ Hl).
    destruct (parseAll parseConstraint _) as [err|groups].
    + intros [= <- <-]. right; left. eauto.
    + destruct (combine _ _ _ _ _ _ _) as [final|]; [| done].
      intros [= <- <-]. right; right. done.
Qed.

(** X8.  A call of [NewConstraint] never writes [cacheConstraints], keeps
    every entry of the cache as it is, and changes no entry but the one of
    its own input. *)
Theorem NewConstraint_cache_only_grows (st st' : cache) (input : string) r
    (Hcall : newConstraint st input = Ok (st', r)) :
  cacheConstraints st' = cacheConstraints st
  ∧ constraintCache st ⊆ constraintCache st'
  ∧ ∀ s, s ≠ input → constraintCache st' !! s = constraintCache st !! s.
Proof.
  apply NewConstraint_cases in Hcall as [[-> _]|[[-> _]|(-> & Hl & _)]]; try done.
  unfold cacheStore, cacheLookup in *.
  destruct (cacheConstraints st) eqn:Hon; simpl; [| done].
  split_and!; [done | by apply insert_subseteq |].
  intros s Hs. by rewrite lookup_insert_ne.
Qed.

(** X9.  In every state, a second call of [NewConstraint] with the same
    input returns the pair that the first call returned and leaves the
    state as the first call left it; so it is for errors and with caching
    off as well. *)
Theorem NewConstraint_again (st st' : cache) (input : string) r
    (Hcall : newConstraint st input = Ok (st', r)) :
  newConstraint st' input = Ok (st', r).
Proof.
  pose proof Hcall as Hc.
  apply NewConstraint_cases in Hc as [[-> _]|[[-> _]|(-> & Hl & Hr)]]; try done.
  destruct r as [final err]. simpl in *. subst err.
  unfold cacheStore, cacheLookup in *.
  destruct (cacheConstraints st) eqn:Hon.
  - apply NewConstraint_cached. unfold cacheLookup. simpl. by rewrite lookup_insert_eq.
  - done.
Qed.

(** X17.  With [cacheConstraints] off, [NewConstraint] neither reads nor
    writes the cache: whatever the cache holds, the call returns what the
    procedure gives for the input, and the state is as it was. *)
Theorem NewConstraint_caching_off (st : cache) (input : string)
    (Hoff : cacheConstraints st = false) :
  newConstraint st input = r ← procedure input; Ok (st, r).
Proof.
  assert (cacheLookup st input = None) as Hmiss by (unfold cacheLookup; by rewrite Hoff).
  rewrite (NewConstraint_computes _ _ _ _ _ _ _ _ _ _ Hmiss).
  unfold parseExpression, cacheStore. rewrite Hoff.
  destruct (parseAll parseConstraint _) as [err|groups]; [done |].
  by destruct (combine _ _ _ _ _ _ _).
Qed.

(** *** The pair returned *)

Lemma Intersections_are_values (groups : list (list Constraint)) (ands : list iface) :
  mapM (λ g, Intersection sortList Intersect (Val <$> g)) groups = Ok ands →
  ∃ l, ands = Val <$> l.
Proof.
  revert ands. induction groups as [|g groups IH]; intros ands; csimpl.
  - intros [= <-]. by exists [].
  - destruct (Intersection_returns sortList Intersect g) as [c ->]. simpl.
    destruct (mapM _ groups) as [rest|]; [| done]. simpl.
    intros [= <-]. destruct (IH rest eq_refl) as [l ->]. by exists (c :: l).
Qed.

Lemma Union_returns_value (l : list Constraint) (c : iface) :
  union (Val <$> l) = Ok c → ∃ v, c = Val v.
Proof.
  destruct l as [|a [|b l]].
  - intros [= <-]. by eexists.
  - intros [= <-]. by eexists.
  - rewrite Union_two_or_more. case_match; [intros [= <-]; by eexists |].
    destruct (mergeLoop _ _ _ _ _ _) as [nuc|]; [| done]. simpl.
    intros [= <-]. destruct nuc as [|m [|m' nuc]]; by eexists.
Qed.

Lemma parseExpression_pair (s : string) (c : iface) (e : option error) :
  procedure s = Ok (c, e) →
  (e = None ∧ ∃ v, c = Val v) ∨ (c = Nil ∧ ∃ err, e = Some err).
Proof.
  unfold parseExpression, combine.
  destruct (parseAll parseConstraint _) as [err|groups].
  - intros [= <- <-]. right. eauto.
  - destruct (mapM _ groups) as [ands|] eqn:Hands; [| done]. simpl.
    apply Intersections_are_values in Hands as [l ->].
    destruct (union _) as [final|] eqn:Hu; [| done]. simpl.
    intros [= <- <-]. left. split; [done |]. by eapply Union_returns_value.
Qed.

(** X10.  In every state that calls of [NewConstraint] lead to, the pair
    returned holds either a constraint that is not nil and a nil error, or
    a nil constraint and an error. *)
Theorem NewConstraint_constraint_or_error (st st' : cache) (input : string)
    (c : iface) (e : option error)
    (Hst : reachableState st)
    (Hcall : newConstraint st input = Ok (st', (c, e))) :
  (e = None ∧ ∃ v, c = Val v) ∨ (c = Nil ∧ ∃ err, e = Some err).
Proof.
  apply reachable_invariant in Hst as [_ Hst].
  apply (parseExpression_pair input).
  rewrite <- (NewConstraint_value _ _ _ _ _ _ _ _ st input Hst).
  by rewrite Hcall.
Qed.

(** *** The error returned *)

Lemma parseGroup_app (l l' : list string) :
  parseGroup parseConstraint (l ++ l') =
    match parseGroup parseConstraint l, parseGroup parseConstraint l' with
    | inl err, _ => inl err
    | inr _, inl err => inl err
    | inr cs, inr cs' => inr (cs ++ cs')
    end.
Proof.
  induction l as [|m l IH]; simpl.
  - by destruct (parseGroup parseConstraint l').
  - destruct (parseConstraint m); [by destruct (parseGroup parseConstraint (l ++ l')) |].
    rewrite IH.
    by destruct (parseGroup parseConstraint l), (parseGroup parseConstraint l').
Qed.

Lemma parseAll_concat (groups : list (list string)) :
  parseGroup parseConstraint (concat groups) =
    match parseAll parseConstraint groups with
    | inl err => inl err
    | inr css => inr (concat css)
    end.
Proof.
  induction groups as [|g groups IH]; simpl; [done |].
  rewrite parseGroup_app, IH.
  by destruct (parseGroup parseConstraint g), (parseAll parseConstraint groups).
Qed.

Lemma parseGroup_first_error (pre post : list string) (m : string) (err : error) :
  Forall (λ x, ∃ c, parseConstraint x = inr c) pre →
  parseConstraint m = inl err →
  parseGroup parseConstraint (pre ++ m :: post) = inl err.
Proof.
  intros Hpre Hm. induction Hpre as [|x pre [c Hx] _ IH]; simpl.
  - by rewrite Hm.
  - by rewrite Hx, IH.
Qed.

(** X12.  The error returned is that of the first member, in reading
    order over all the OR-groups, that does not parse. *)
Theorem NewConstraint_first_error (st : cache) (input : string)
    (pre post : list string) (m : string) (err : error)
    (Hst : reachableState st)
    (Hmembers : concat (splitExpression rewriteRange input) = pre ++ m :: post)
    (Hpre : Forall (λ x, ∃ c, parseConstraint x = inr c) pre)
    (Hm : parseConstraint m = inl err) :
  newConstraint st input = Ok (st, (Nil, Some err)).
Proof.
  apply reachable_invariant in Hst as [_ Hst].
  pose proof (parseAll_concat (splitExpression rewriteRange input)) as Hall.
  rewrite Hmembers, (parseGroup_first_error _ _ _ _ Hpre Hm) in Hall.
  destruct (parseAll parseConstraint _) as [err'|css] eqn:Hp; [| done].
  injection Hall as <-.
  destruct (cacheLookup st input) as [final|] eqn:Hl.
  - apply (cacheLookup_consistent _ _ _ _ _ _ _ _ _ _ _ Hst) in Hl.
    unfold parseExpression in Hl. by rewrite Hp in Hl.
  - by rewrite (NewConstraint_computes _ _ _ _ _ _ _ _ _ _ Hl), Hp.
Qed.

(** *** An expression of a single token *)

(** X11.  An expression whose rewritten form holds neither [|] nor [,] is
    a single token: on a cache miss [NewConstraint] returns what
    [parseConstraint] gives for the rewritten expression, error or
    constraint, the constraint as it is. *)
Theorem NewConstraint_single_token (st : cache) (input : string)
    (Hmiss : cacheLookup st input = None)
    (Htoken : noneOf "|," (rewriteRange input) = true) :
  newConstraint st input =
    match parseConstraint (rewriteRange input) with
    | inl err => Ok (st, (Nil, Some err))
    | inr c => Ok (cacheStore st input (Val c), (Val c, None))
    end.
Proof.
  rewrite (NewConstraint_computes _ _ _ _ _ _ _ _ _ _ Hmiss).
  unfold splitExpression.
  rewrite Split_without_separator
    by (eapply noneOf_occursIn; [exact Htoken | reflexivity]).
  simpl.
  rewrite Split_without_separator
    by (eapply noneOf_occursIn; [exact Htoken | reflexivity]).
  simpl. by destruct (parseConstraint (rewriteRange input)).
Qed.
End NewConstraintMore.

(** ** The model of the collaborators meets the contracts assumed above *)

Module SpecModelFacts.
Import SpecModel.

Ltac compare_versions :=
  repeat (match goal with
    | |- context [?a <=? ?b] => destruct (Nat.leb_spec a b)
    | |- context [?a <? ?b] => destruct (Nat.ltb_spec a b)
    | |- context [?a =? ?b] => destruct (Nat.eqb_spec a b)
    | H : context [?a <=? ?b] |- _ => destruct (Nat.leb_spec a b)
    | H : context [?a <? ?b] |- _ => destruct (Nat.ltb_spec a b)
    | H : context [?a =? ?b] |- _ => destruct (Nat.eqb_spec a b)
    end; simpl in *);
  try done; try lia; try (exfalso; lia).

Lemma tighterLower_matches a b v :
  aboveLower (tighterLower a b) v = aboveLower a v && aboveLower b v.
Proof. destruct a, b; simpl; rewrite ?andb_true_r; try done; compare_versions. Qed.

Lemma tighterUpper_matches a b v :
  belowUpper (tighterUpper a b) v = belowUpper a v && belowUpper b v.
Proof. destruct a, b; simpl; rewrite ?andb_true_r; try done; compare_versions. Qed.

Lemma boundsMeet_matches lo hi v :
  aboveLower lo v && belowUpper hi v = true → boundsMeet lo hi = true.
Proof. destruct lo, hi; simpl; try done; compare_versions. Qed.

Lemma intersectReal_matches x y v :
  matches versionEqual rangeMatches (intersectReal x y) v
  = matchesReal versionEqual rangeMatches x v && matchesReal versionEqual rangeMatches y v.
Proof.
  destruct x as [p|r], y as [q|s]; simpl.
  - unfold versionEqual. compare_versions.
  - destruct (rangeMatches s p) eqn:Hs; simpl; unfold versionEqual, rangeMatches in *.
    + destruct (Nat.eqb_spec p v); subst; [by rewrite Hs | done].
    + destruct (Nat.eqb_spec p v); subst; [by rewrite Hs | done].
  - destruct (rangeMatches r q) eqn:Hs; simpl; unfold versionEqual, rangeMatches in *.
    + destruct (Nat.eqb_spec q v); subst; [by rewrite Hs | by rewrite andb_false_r].
    + destruct (Nat.eqb_spec q v); subst; [by rewrite Hs | by rewrite andb_false_r].
  - set (lo := tighterLower _ _). set (hi := tighterUpper _ _).
    assert (rangeMatches (Range lo hi) v = rangeMatches r v && rangeMatches s v) as Hm.
    { unfold rangeMatches, lo, hi. simpl.
      rewrite tighterLower_matches, tighterUpper_matches.
      by destruct (aboveLower (lower r) v), (aboveLower (lower s) v),
        (belowUpper (upper r) v), (belowUpper (upper s) v). }
    destruct (boundsMeet lo hi) eqn:Hb; simpl; [done |].
    rewrite <- Hm. unfold rangeMatches. simpl.
    destruct (aboveLower lo v && belowUpper hi v) eqn:Hv; [| done].
    apply boundsMeet_matches in Hv. congruence.
Qed.

#[local] Abbreviation matchesC := (matches versionEqual rangeMatches).
#[local] Abbreviation matchesR := (matchesReal versionEqual rangeMatches).

Lemma collapse_matches u v : matchesC (collapse u) v = existsb (λ m, matchesR m v) u.
Proof.
  destruct u as [|m [|m' u]]; [done | | done].
  simpl. by rewrite matches_ofReal, orb_false_r.
Qed.

Lemma existsb_bind {A B : Type} (f : B → bool) (g : A → list B) (l : list A) :
  existsb f (l ≫= g) = existsb (λ x, existsb f (g x)) l.
Proof.
  induction l as [|x l IH]; [done |].
  rewrite bind_cons, existsb_app. simpl. by rewrite IH.
Qed.

Lemma existsb_andb {A B : Type} (f : A → bool) (g : B → bool) (xs : list A) (ys : list B) :
  existsb (λ x, existsb (λ y, f x && g y) ys) xs = existsb f xs && existsb g ys.
Proof.
  induction xs as [|x xs IH]; simpl; [done |].
  rewrite IH. clear IH.
  assert (existsb (λ y, f x && g y) ys = f x && existsb g ys) as ->.
  { induction ys as [|y ys IH]; simpl; [by rewrite andb_false_r |].
    rewrite IH. by destruct (f x), (g y). }
  by destruct (f x), (existsb f xs), (existsb g ys).
Qed.

Lemma members_intersectReal x y v :
  existsb (λ m, matchesR m v) (members (intersectReal x y)) = matchesR x v && matchesR y v.
Proof.
  rewrite matches_members, intersectReal_matches; [done |].
  destruct x, y; simpl; by repeat case_match.
Qed.

Lemma existsb_pointwise {A : Type} (f g : A → bool) (l : list A) :
  (∀ x, f x = g x) → existsb f l = existsb g l.
Proof. intros H. induction l as [|x l IH]; simpl; [done |]. by rewrite H, IH. Qed.

Lemma model_Intersect_matches a b v :
  matchesC (Intersect a b) v = matchesC a v && matchesC b v.
Proof.
  assert (a ≠ any → a ≠ none → b ≠ any → b ≠ none →
          matchesC (Intersect a b) v = matchesC a v && matchesC b v) as Hgen.
  { intros Ha Ha' Hb Hb'.
    replace (Intersect a b)
      with (collapse (x ← members a; y ← members b; members (intersectReal x y)))
      by (by destruct a, b).
    rewrite collapse_matches, existsb_bind.
    rewrite <- (matches_members _ _ a), <- (matches_members _ _ b) by done.
    rewrite <- existsb_andb.
    apply existsb_pointwise. intros x. rewrite existsb_bind.
    apply existsb_pointwise. intros y. apply members_intersectReal. }
  destruct a, b; try (by apply Hgen); simpl; by rewrite ?andb_true_r, ?andb_false_r.
Qed.

Lemma model_Intersect_Empty_left c : Intersect none c = none.
Proof. by destruct c. Qed.

Lemma model_Intersect_Empty_right c : Intersect c none = none.
Proof. by destruct c. Qed.

Lemma insertSorted_permutes m l : insertSorted m l ≡ₚ m :: l.
Proof.
  induction l as [|x l IH]; simpl; [done |].
  case_match; [done |]. rewrite IH. apply Permutation_swap.
Qed.

Lemma model_sortList_permutes l : sortList l ≡ₚ l.
Proof.
  induction l as [|x l IH]; simpl; [done |].
  by rewrite insertSorted_permutes, IH.
Qed.

Lemma model_Equal_matches (p q v : Version) :
  versionEqual p q = true → versionEqual p v = versionEqual q v.
Proof. unfold versionEqual. by intros ->%Nat.eqb_eq. Qed.

Lemma model_Union_with_Point r p :
  asReal (rangeUnion r (ofVersion p)) = None → ∃ u, rangeUnion r (ofVersion p) = ofUnion u.
Proof. simpl. repeat case_match; simpl; try done; by eexists. Qed.

Lemma model_Union_with_Range r s :
  rangeMatchesAny r (ofRange s) || areAdjacent r s = true →
  is_Some (asReal (rangeUnion r (ofRange s))).
Proof. simpl. by intros ->. Qed.

Lemma model_Union_Point_matches r p v :
  matchesC (rangeUnion r (ofVersion p)) v = rangeMatches r v || versionEqual p v.
Proof.
  simpl. destruct (rangeMatches r p) eqn:Hp.
  { simpl. unfold versionEqual. destruct (Nat.eqb_spec p v) as [->|];
      [by rewrite Hp | by rewrite orb_false_r]. }
  destruct r as [lo hi]. unfold rangeMatches, versionEqual in *. simpl in *.
  destruct lo, hi; simpl in *; compare_versions.
Qed.

Lemma rangeMatchesAny_Range r s :
  rangeMatchesAny r (ofRange s)
  = boundsMeet (tighterLower (lower r) (lower s)) (tighterUpper (upper r) (upper s)).
Proof.
  unfold rangeMatchesAny, Intersect. simpl.
  by destruct (boundsMeet _ _).
Qed.

Lemma model_Union_Range_matches r s v :
  rangeMatchesAny r (ofRange s) || areAdjacent r s = true →
  matchesC (rangeUnion r (ofRange s)) v = rangeMatches r v || rangeMatches s v.
Proof.
  intros Hm. simpl. rewrite Hm. simpl.
  rewrite rangeMatchesAny_Range in Hm.
  destruct r as [rl ru], s as [sl su].
  unfold areAdjacent, rangeMatches in *. simpl in *.
  destruct rl, ru, sl, su; simpl in *; compare_versions.
Qed.
End SpecModelFacts.

(** * The functions at work on the model *)

Import SpecModel Sample SpecModelFacts.

(** The adjacency merge of section 8, and the evidence for C1: the ranges
    [>=1.0.0, <2.0.0] and [>=2.0.0, <3.0.0] sort in that order, are
    adjacent, and have [>=1.0.0, <3.0.0] as their union. *)
Lemma Union_merges_Range_with_Range_witness :
  sortList [realRange (fromTo 1 2); realRange (fromTo 2 3)]
    = [realRange (fromTo 1 2); realRange (fromTo 2 3)]
  ∧ rangeMatchesAny (fromTo 1 2) (ofRange (fromTo 2 3)) || areAdjacent (fromTo 1 2) (fromTo 2 3)
    = true
  ∧ rangeUnion (fromTo 1 2) (ofRange (fromTo 2 3)) = ofRange (fromTo 1 3)
  ∧ Union [Val (ofRange (fromTo 1 2)); Val (ofRange (fromTo 2 3))]
    = Ok (Val (ofRange (fromTo 1 3))).
Proof.
  split_and!; [reflexivity | reflexivity | reflexivity |].
  apply (proj2 (Union_merges_Range_with_Range
                  sortList versionEqual rangeUnion rangeMatchesAny areAdjacent));
    reflexivity.
Defined.

(** Evidence for C2: three inputs, one of them Empty. *)
Lemma Intersection_is_plain_fold_witness :
  2 ≤ length ([ofRange (fromTo 1 4); none; ofVersion 2] : list Constraint)
  ∧ Intersection (Val <$> [ofRange (fromTo 1 4); none; ofVersion 2])
    = Ok (Val (foldOfInputs Intersect [ofRange (fromTo 1 4); none; ofVersion 2])).
Proof.
  split; [simpl; lia |].
  apply (Intersection_is_plain_fold Intersect model_Intersect_Empty_left
           model_Intersect_Empty_right sortList sortList).
  simpl; lia.
Defined.

(** Evidence for the departure from C3: the two Empty constraints. *)
Lemma Union_of_Empty_inputs_witness :
  sortList [] = [] ∧ Union [Val none; Val none] = Ok (Val (ofUnion [])).
Proof.
  split; [reflexivity |].
  apply (Union_of_Empty_inputs sortList versionEqual rangeUnion rangeMatchesAny areAdjacent
           eq_refl [none; none]).
  - repeat constructor.
  - simpl; lia.
Defined.

(** The same departure seen from [NewConstraint]: an expression whose
    OR-groups are all unsatisfiable parses to a [unionConstraint] without
    members, of which [IsNone] is false. *)
Lemma NewConstraint_of_unsatisfiable_groups :
  snd <$> NewConstraint initialCache "1, 2 || 3, 4" = Ok (Val (ofUnion []), None)
  ∧ IsNone (Val (ofUnion [])) (Version:=Version) (rangeConstraint:=rangeConstraint) = false.
Proof. split; reflexivity. Qed.

(** C4 as it is stated fails: the range [>=1.0.0, <3.0.0] sorts before the
    point 2.0.0, the merge loop meets the range as last member and the point
    as next one, and the point is not appended. *)
Lemma Range_then_Point_not_appended :
  sortList [realRange (fromTo 1 3); realVersion 2] = [realRange (fromTo 1 3); realVersion 2]
  ∧ mergeStep [realRange (fromTo 1 3)] (realVersion 2) = Ok [realRange (fromTo 1 3)]
  ∧ mergeStep [realRange (fromTo 1 3)] (realVersion 2)
    ≠ Ok [realRange (fromTo 1 3); realVersion 2]
  ∧ Union [Val (ofRange (fromTo 1 3)); Val (ofVersion 2)] = Ok (Val (ofRange (fromTo 1 3))).
Proof. split_and!; done. Qed.

(** Evidence for C5. *)
Lemma Intersection_zero_one_Empty_witness :
  none ∈ ([ofVersion 1; none] : list Constraint)
  ∧ Intersection [] = Ok None'
  ∧ Intersection [Val (ofVersion 1)] = Ok (Val (ofVersion 1))
  ∧ Intersection (Val <$> [ofVersion 1; none]) = Ok None'.
Proof.
  assert (none ∈ ([ofVersion 1; none] : list Constraint)) as Hin
    by apply list_elem_of_further, list_elem_of_here.
  split; [exact Hin |].
  exact (Intersection_zero_one_Empty Intersect sortList (Val (ofVersion 1))
           [ofVersion 1; none] Hin).
Defined.

(** Evidence for C6. *)
Lemma Union_zero_one_Universal_witness :
  any ∈ ([ofVersion 1; any] : list Constraint)
  ∧ Union [] = Ok None'
  ∧ Union [Val (ofVersion 1)] = Ok (Val (ofVersion 1))
  ∧ Union (Val <$> [ofVersion 1; any]) = Ok Any.
Proof.
  assert (any ∈ ([ofVersion 1; any] : list Constraint)) as Hin
    by apply list_elem_of_further, list_elem_of_here.
  split; [exact Hin |].
  exact (Union_zero_one_Universal sortList versionEqual rangeUnion rangeMatchesAny
           areAdjacent (Val (ofVersion 1)) [ofVersion 1; any] Hin).
Defined.

(** Evidence for C7: the model meets every contract, here at a range, a
    point in it and a second range adjacent to the first. *)
Lemma Intersection_Union_commutative_associative_witness :
  let a : Constraint := ofRange (fromTo 1 3) in
  let b : Constraint := ofVersion 2 in
  let c : Constraint := ofRange (fromTo 3 5) in
  let same := sameVersions versionEqual rangeMatches in
  same (Intersection [Val a; Val b]) (Intersection [Val b; Val a])
  ∧ same (Union [Val a; Val b]) (Union [Val b; Val a])
  ∧ same (ab ← Intersection [Val a; Val b]; Intersection [ab; Val c])
         (bc ← Intersection [Val b; Val c]; Intersection [Val a; bc])
  ∧ same (ab ← Union [Val a; Val b]; Union [ab; Val c])
         (bc ← Union [Val b; Val c]; Union [Val a; bc])
  ∧ same (Intersection [Val a; Val b; Val c])
         (ab ← Intersection [Val a; Val b]; Intersection [ab; Val c])
  ∧ same (Union [Val a; Val b; Val c])
         (ab ← Union [Val a; Val b]; Union [ab; Val c]).
Proof.
  exact (Intersection_Union_commutative_associative
           versionEqual rangeMatches sortList Intersect rangeUnion rangeMatchesAny areAdjacent
           model_sortList_permutes model_Equal_matches model_Intersect_matches
           model_Union_Point_matches model_Union_Range_matches
           model_Union_with_Point model_Union_with_Range
           (ofRange (fromTo 1 3)) (ofVersion 2) (ofRange (fromTo 3 5))).
Defined.

(** Evidence for C8: as the package starts, the expression of the adjacency
    merge parses to the single range. *)
Lemma NewConstraint_follows_procedure_witness :
  reachable sortList Intersect versionEqual rangeUnion rangeMatchesAny areAdjacent
    rewriteRange parseConstraint initialCache
  ∧ snd <$> NewConstraint initialCache ">=1, <2 || >=2, <3"
    = Ok (Val (ofRange (fromTo 1 3)), None).
Proof.
  split; [apply reachable_initial |].
  rewrite (NewConstraint_follows_procedure sortList Intersect versionEqual rangeUnion
             rangeMatchesAny areAdjacent rewriteRange parseConstraint initialCache
             ">=1, <2 || >=2, <3" (reachable_initial _ _ _ _ _ _ _ _)).
  reflexivity.
Defined.

(** Evidence for C9: one expression with a member that does not parse, one
    that parses. *)
Lemma NewConstraint_error_and_cache_witness :
  (∃ err, NewConstraint initialCache "1, a" = Ok (initialCache, (Nil, Some err)))
  ∧ (∃ st', NewConstraint initialCache ">=1, <2" = Ok (st', (Val (ofRange (fromTo 1 2)), None))
            ∧ constraintCache st' !! ">=1, <2" = Some (Val (ofRange (fromTo 1 2)))
            ∧ NewConstraint st' ">=1, <2" = Ok (st', (Val (ofRange (fromTo 1 2)), None))).
Proof.
  split.
  - apply (proj1 (NewConstraint_error_and_cache sortList Intersect versionEqual rangeUnion
                    rangeMatchesAny areAdjacent rewriteRange parseConstraint initialCache
                    "1, a" (reachable_initial _ _ _ _ _ _ _ _))
             " a" "improper constraint:  a").
    + apply list_elem_of_further, list_elem_of_here.
    + reflexivity.
  - destruct (proj2 (NewConstraint_error_and_cache sortList Intersect versionEqual rangeUnion
                       rangeMatchesAny areAdjacent rewriteRange parseConstraint initialCache
                       ">=1, <2" (reachable_initial _ _ _ _ _ _ _ _))
                (Val (ofRange (fromTo 1 2))) eq_refl) as (st' & Hfirst & Hin & Hagain).
    exists st'. split_and!; [exact Hfirst | exact Hin | apply Hagain].
Defined.

(** Evidence for C10. *)
Lemma variants_never_unknown_type_witness :
  let cg : list iface := [Val (ofRange (fromTo 1 3)); Val (ofVersion 2); Val none] in
  Forall (λ c, c ≠ Nil) cg
  ∧ (∃ c, Intersection cg = Ok (Val c))
  ∧ Union cg ≠ Panic unknownConstraintType
  ∧ ∃ c, Union cg = Ok (Val c).
Proof.
  intros cg.
  assert (Forall (λ c, c ≠ Nil) cg) as Hcg by (repeat constructor; discriminate).
  destruct (variants_never_unknown_type sortList Intersect versionEqual rangeUnion
              rangeMatchesAny areAdjacent cg Hcg) as (HI & HU & Hret).
  split_and!; [exact Hcg | exact HI | exact HU |].
  apply Hret; [apply model_Union_with_Point | apply model_Union_with_Range].
Defined.

(** ** The examples of section 8 of the specification, on the model *)

(** Disjoint ranges stay separate, and 2.5.0, here 2, is in neither. *)
Lemma disjoint_ranges_stay_separate :
  Union [Val (ofRange (fromTo 1 2)); Val (ofRange (fromTo 3 4))]
    = Ok (Val (ofUnion [realRange (fromTo 1 2); realRange (fromTo 3 4)]))
  ∧ matches versionEqual rangeMatches
      (ofUnion [realRange (fromTo 1 2); realRange (fromTo 3 4)]) 2 = false.
Proof. split; reflexivity. Qed.

(** Duplicate points collapse. *)
Lemma duplicate_points_collapse :
  Union [Val (ofVersion 1); Val (ofVersion 1)] = Ok (Val (ofVersion 1)).
Proof. reflexivity. Qed.

(** Overlapping ranges intersect in their common part, disjoint ones in
    Empty. *)
Lemma ranges_intersect :
  Intersection [Val (ofRange (fromTo 1 3)); Val (ofRange (fromTo 2 4))]
    = Ok (Val (ofRange (fromTo 2 3)))
  ∧ Intersection [Val (ofRange (fromTo 1 2)); Val (ofRange (fromTo 3 4))] = Ok None'.
Proof. split; reflexivity. Qed.

(** A hyphen range parses as the two comparisons. *)
Lemma hyphen_range_parses :
  snd <$> NewConstraint initialCache "1 - 2" = snd <$> NewConstraint initialCache ">=1, <=2".
Proof. reflexivity. Qed.

(** ** Further facts about the model, and the further properties at work *)

Lemma model_Intersect_Universal_left (c : Constraint) : Intersect any c = c.
Proof. done. Qed.

Lemma model_Intersect_Universal_right (c : Constraint) : Intersect c any = c.
Proof. by destruct c. Qed.

Lemma model_sortList_keeps_members (l : list realConstraint) : sortList l = [] → l = [].
Proof.
  intros Hl. apply Permutation_nil_r. rewrite <- Hl. symmetry. apply model_sortList_permutes.
Qed.

Lemma model_Union_with_Point_has_members (r : rangeConstraint) (p : Version) :
  rangeUnion r (ofVersion p) ≠ ofUnion [].
Proof.
  simpl. repeat case_match; done.
Qed.

(** Evidence for X1. *)
Lemma Intersection_of_one_more_witness :
  Intersection (Val <$> ([ofRange (fromTo 1 5); ofRange (fromTo 2 9)] ++ [ofVersion 3]))
  = (x ← Intersection (Val <$> [ofRange (fromTo 1 5); ofRange (fromTo 2 9)]);
     Intersection [x; Val (ofVersion 3)]).
Proof.
  apply (Intersection_of_one_more sortList Intersect
           [ofRange (fromTo 1 5); ofRange (fromTo 2 9)] (ofVersion 3)).
  discriminate.
Defined.

(** Evidence for X2: a nil after a Point, and Empty and Universal before a
    nil. *)
Lemma first_loop_stops_at_first_decisive_input_witness :
  Intersection [Val (ofVersion 1); Nil] = Panic unknownConstraintType
  ∧ Intersection [Val (ofVersion 1); Val none; Nil] = Ok None'
  ∧ Union [Val (ofVersion 1); Nil] = Panic unknownConstraintType
  ∧ Union [Val (ofVersion 1); Val any; Nil] = Ok Any.
Proof.
  assert (1 ≤ length ([ofVersion 1] : list Constraint) + length ([] : list iface)) as H0
    by (simpl; lia).
  assert (1 ≤ length ([ofVersion 1] : list Constraint) + length ([Nil] : list iface)) as H1
    by (simpl; lia).
  destruct (first_loop_stops_at_first_decisive_input sortList Intersect versionEqual
              rangeUnion rangeMatchesAny areAdjacent [ofVersion 1] [] H0)
    as (HI & _ & HU & _).
  destruct (first_loop_stops_at_first_decisive_input sortList Intersect versionEqual
              rangeUnion rangeMatchesAny areAdjacent [ofVersion 1] [Nil] H1)
    as (_ & HI' & _ & HU').
  split_and!; [apply HI | exact HI' | apply HU | exact HU'];
    intros H; (apply elem_of_cons in H as [H|H]; [discriminate |]);
    by apply elem_of_nil in H.
Defined.

(** Evidence for X4: the two Empty inputs again. *)
Lemma Union_of_several_never_Empty_witness :
  IsNone (Val (ofUnion []) : iface) = false ∧ (Val (ofUnion []) : iface) ≠ Nil.
Proof.
  apply (Union_of_several_never_Empty sortList versionEqual rangeUnion rangeMatchesAny
           areAdjacent [Val none; Val none]).
  - simpl; lia.
  - reflexivity.
Defined.

(** Evidence for X5: Empty inputs and a UnionSet input against the plain
    members in another order. *)
Lemma Union_depends_on_sorted_members_witness :
  Union (Val <$> [none; ofRange (fromTo 1 2); none;
                  ofUnion [realVersion 5; realRange (fromTo 7 9)]])
  = Union (Val <$> [ofRange (fromTo 7 9); ofVersion 5; ofRange (fromTo 1 2)]).
Proof.
  apply (Union_depends_on_sorted_members sortList versionEqual rangeUnion rangeMatchesAny
           areAdjacent).
  - simpl; lia.
  - simpl; lia.
  - intros H. repeat (apply elem_of_cons in H as [H|H]; [discriminate |]).
    by apply elem_of_nil in H.
  - intros H. repeat (apply elem_of_cons in H as [H|H]; [discriminate |]).
    by apply elem_of_nil in H.
  - reflexivity.
Defined.

(** Evidence for X6. *)
Lemma Union_of_one_Point_repeated_witness :
  Union (Val <$> replicate 4 (ofVersion 7)) = Ok (Val (ofVersion 7)).
Proof.
  apply (Union_of_one_Point_repeated sortList versionEqual rangeUnion rangeMatchesAny
           areAdjacent 7 2 model_sortList_permutes).
  reflexivity.
Defined.

(** Evidence for X7: with the variant of the model, [<2] and [>1] overlap
    and have Universal as their union. *)
Lemma Union_unchecked_assertion_witness :
  OpenModel.Union [Val (ofRange (Range Unbounded (Excl 2)));
                   Val (ofRange (Range (Excl 1) Unbounded))]
  = Panic interfaceConversion.
Proof.
  apply (Union_unchecked_assertion sortList versionEqual OpenModel.rangeUnion
           rangeMatchesAny areAdjacent); reflexivity.
Defined.

(** Evidence for X13. *)
Lemma Intersection_drops_Universal_witness :
  Intersection (Val <$> [any; ofRange (fromTo 1 5); any; ofVersion 3])
  = Intersection (Val <$> filter (λ c : Constraint, IsAny (Val c) = false)
                            [any; ofRange (fromTo 1 5); any; ofVersion 3]).
Proof.
  apply (Intersection_drops_Universal sortList Intersect
           model_Intersect_Universal_left model_Intersect_Universal_right).
  vm_compute. discriminate.
Defined.

(** Evidence for X14: a Range among Empty inputs, and a UnionSet of one
    member. *)
Lemma Union_of_one_member_witness :
  Union (Val <$> [none; ofRange (fromTo 1 2); none]) = Ok (Val (ofRange (fromTo 1 2)))
  ∧ Union (Val <$> [none; ofUnion [realVersion 4]]) = Ok (Val (ofVersion 4)).
Proof.
  split.
  - apply (Union_of_one_member sortList versionEqual rangeUnion rangeMatchesAny areAdjacent
             [none; ofRange (fromTo 1 2); none] (realRange (fromTo 1 2)));
      [reflexivity | simpl; lia | | reflexivity].
    intros H. repeat (apply elem_of_cons in H as [H|H]; [discriminate |]).
    by apply elem_of_nil in H.
  - apply (Union_of_one_member sortList versionEqual rangeUnion rangeMatchesAny areAdjacent
             [none; ofUnion [realVersion 4]] (realVersion 4));
      [reflexivity | simpl; lia | | reflexivity].
    intros H. repeat (apply elem_of_cons in H as [H|H]; [discriminate |]).
    by apply elem_of_nil in H.
Defined.

(** Evidence for X15: two disjoint ranges. *)
Lemma Union_UnionSet_has_two_members_witness :
  Union (Val <$> [ofRange (fromTo 1 2); ofRange (fromTo 3 4)])
  = Ok (Val (ofUnion [realRange (fromTo 1 2); realRange (fromTo 3 4)]))
  ∧ 2 ≤ length ([realRange (fromTo 1 2); realRange (fromTo 3 4)] : list realConstraint).
Proof.
  split; [reflexivity |].
  apply (Union_UnionSet_has_two_members sortList versionEqual rangeUnion rangeMatchesAny
           areAdjacent model_sortList_keeps_members model_Union_with_Point_has_members
           [ofRange (fromTo 1 2); ofRange (fromTo 3 4)]).
  - simpl; lia.
  - discriminate.
  - reflexivity.
Defined.

(** Evidence for X8: a call that stores its result. *)
Lemma NewConstraint_cache_only_grows_witness :
  let st := cacheStore initialCache "1" (Val (ofVersion 1)) in
  let st' := cacheStore st ">=1, <2" (Val (ofRange (fromTo 1 2))) in
  NewConstraint st ">=1, <2" = Ok (st', (Val (ofRange (fromTo 1 2)), None))
  ∧ cacheConstraints st' = cacheConstraints st
  ∧ constraintCache st ⊆ constraintCache st'
  ∧ ∀ s, s ≠ ">=1, <2" → constraintCache st' !! s = constraintCache st !! s.
Proof.
  intros st st'.
  assert (NewConstraint st ">=1, <2" = Ok (st', (Val (ofRange (fromTo 1 2)), None)))
    as Hcall by reflexivity.
  split; [exact Hcall |].
  exact (NewConstraint_cache_only_grows sortList Intersect versionEqual rangeUnion
           rangeMatchesAny areAdjacent rewriteRange parseConstraint st st' ">=1, <2" _ Hcall).
Defined.

(** Evidence for X9: a call with caching on, and one with caching off. *)
Lemma NewConstraint_again_witness :
  (let st' := cacheStore initialCache ">=1" (Val (ofRange (Range (Incl 1) Unbounded))) in
   NewConstraint st' ">=1" = Ok (st', (Val (ofRange (Range (Incl 1) Unbounded)), None)))
  ∧ (let off : cache Version rangeConstraint := Cache false ∅ in
     NewConstraint off ">=1" = Ok (off, (Val (ofRange (Range (Incl 1) Unbounded)), None))).
Proof.
  split.
  - intros st'.
    apply (NewConstraint_again sortList Intersect versionEqual rangeUnion rangeMatchesAny
             areAdjacent rewriteRange parseConstraint initialCache st' ">=1").
    reflexivity.
  - intros off.
    apply (NewConstraint_again sortList Intersect versionEqual rangeUnion rangeMatchesAny
             areAdjacent rewriteRange parseConstraint off off ">=1").
    reflexivity.
Defined.

(** Evidence for X10: a call that returns a constraint. *)
Lemma NewConstraint_constraint_or_error_witness :
  ((None : option string) = None ∧ ∃ v, (Val (ofRange (fromTo 1 2)) : iface) = Val v)
  ∨ ((Val (ofRange (fromTo 1 2)) : iface) = Nil ∧ ∃ err : string, None = Some err).
Proof.
  apply (NewConstraint_constraint_or_error sortList Intersect versionEqual rangeUnion
           rangeMatchesAny areAdjacent rewriteRange parseConstraint initialCache
           (cacheStore initialCache ">=1, <2" (Val (ofRange (fromTo 1 2)))) ">=1, <2").
  - apply reachable_initial.
  - reflexivity.
Defined.

(** Evidence for X11: a single comparison. *)
Lemma NewConstraint_single_token_witness :
  NewConstraint initialCache ">=1"
  = Ok (cacheStore initialCache ">=1" (Val (ofRange (Range (Incl 1) Unbounded))),
        (Val (ofRange (Range (Incl 1) Unbounded)), None)).
Proof.
  apply (NewConstraint_single_token sortList Intersect versionEqual rangeUnion
           rangeMatchesAny areAdjacent rewriteRange parseConstraint initialCache ">=1");
    reflexivity.
Defined.

(** Evidence for X12: two members that do not parse, in two groups. *)
Lemma NewConstraint_first_error_witness :
  NewConstraint initialCache "1, a || b"
  = Ok (initialCache, (Nil, Some "improper constraint:  a ")).
Proof.
  apply (NewConstraint_first_error sortList Intersect versionEqual rangeUnion
           rangeMatchesAny areAdjacent rewriteRange parseConstraint initialCache
           "1, a || b" ["1"] [" b"] " a ").
  - apply reachable_initial.
  - reflexivity.
  - repeat constructor. by eexists.
  - reflexivity.
Defined.

(** Evidence for X16: five Points, three of them distinct. *)
Lemma Union_of_Points_witness :
  Union (Val <$> (ofVersion <$> [3; 1; 3; 2; 1]))
  = Ok (Val (ofUnion [realVersion 1; realVersion 2; realVersion 3])).
Proof.
  apply (Union_of_Points sortList versionEqual rangeUnion rangeMatchesAny areAdjacent
           [3; 1; 3; 2; 1] [1; 1; 2; 3; 3]).
  - simpl; lia.
  - reflexivity.
Defined.

(** Evidence for X17: caching off, and a cache that holds Empty for the
    input. *)
Lemma NewConstraint_caching_off_witness :
  let st : cache Version rangeConstraint := Cache false {[ ">=1" := Val none ]} in
  NewConstraint st ">=1" = Ok (st, (Val (ofRange (Range (Incl 1) Unbounded)), None)).
Proof.
  intros st.
  apply (NewConstraint_caching_off sortList Intersect versionEqual rangeUnion
           rangeMatchesAny areAdjacent rewriteRange parseConstraint st ">=1").
  reflexivity.
Defined.
